(** * DNS application-level fragmentation: the server-side fragmenter and the
      client-side reassembler of the proxy pair, as a shallow embedding.

    The two proxies are Go programs built on the DNS library
    [github.com/miekg/dns].  Messages are values here: the Go code copies
    message structs and never reads a section slice again after it has
    appended to a copy of it, so value passing is what the code computes. *)

From Stdlib Require Import ZArith.
From Stdlib.Strings Require Import Byte.
From stdpp Require Import gmap strings list fin_maps.

Open Scope Z_scope.

(** ** The DNS library, as far as the proxies use it *)

Module dns.

Definition TypeOPT : Z := 41.
Definition EDNS0LOCALSTART : Z := 65001.
Definition RcodeSuccess : Z := 0.
Definition RcodeServerFailure : Z := 2.
Definition OpcodeQuery : Z := 0.

(** An EDNS0 option: its code ([Option()] in the library) and its data
    octets.  The local options ([*dns.EDNS0_LOCAL]) are exactly such a
    pair. *)
Record EDNS0 := mkEDNS0 { Code : Z; Data : list byte }.

Record RR_Header := mkRR_Header {
  Name : string; Rrtype : Z; Class : Z; Ttl : Z; Rdlength : Z }.

(** [*dns.OPT]: the EDNS0 pseudo record.  Its header's class field holds
    the advertised UDP size. *)
Record OPT := mkOPT { Hdr : RR_Header; Option : list EDNS0 }.

(** The [dns.RR] interface.  The decoder produces a [*dns.OPT] for record
    type 41 and for nothing else, so [Header().Rrtype == dns.TypeOPT] and
    the type assertion of [r] to an OPT pointer are both the test on the
    constructor. *)
Inductive RR :=
| RR_OPT (o : OPT)
| RR_other (h : RR_Header) (rdata : list byte).

Definition is_OPT (r : RR) : bool :=
  match r with RR_OPT _ => true | RR_other _ _ => false end.

Record Question := mkQuestion { Qname : string; Qtype : Z; Qclass : Z }.

Record MsgHdr := mkMsgHdr {
  Id : Z;
  Response : bool;
  Opcode : Z;
  Authoritative : bool;
  Truncated : bool;
  RecursionDesired : bool;
  RecursionAvailable : bool;
  Zero : bool;
  AuthenticatedData : bool;
  CheckingDisabled : bool;
  Rcode : Z }.

Record Msg := mkMsg {
  Header : MsgHdr;
  Compress : bool;
  Questions : list Question;
  Answer : list RR;
  Ns : list RR;
  Extra : list RR }.

Definition set_Answer (m : Msg) (l : list RR) : Msg :=
  mkMsg (Header m) (Compress m) (Questions m) l (Ns m) (Extra m).
Definition set_Ns (m : Msg) (l : list RR) : Msg :=
  mkMsg (Header m) (Compress m) (Questions m) (Answer m) l (Extra m).
Definition set_Extra (m : Msg) (l : list RR) : Msg :=
  mkMsg (Header m) (Compress m) (Questions m) (Answer m) (Ns m) l.
Definition set_Truncated (m : Msg) (b : bool) : Msg :=
  let h := Header m in
  mkMsg (mkMsgHdr (Id h) (Response h) (Opcode h) (Authoritative h) b
           (RecursionDesired h) (RecursionAvailable h) (Zero h)
           (AuthenticatedData h) (CheckingDisabled h) (Rcode h))
        (Compress m) (Questions m) (Answer m) (Ns m) (Extra m).

(** The first OPT record of a list of records. *)
Fixpoint first_OPT (l : list RR) : option OPT :=
  match l with
  | [] => None
  | RR_OPT o :: _ => Some o
  | RR_other _ _ :: l' => first_OPT l'
  end.

(** [Msg.IsEdns0]: the library scans the additional section from its end
    to its start and returns the first OPT record it meets, which is the
    last OPT record of the section. *)
Definition last_OPT (l : list RR) : option OPT := first_OPT (reverse l).
Definition IsEdns0 (m : Msg) : option OPT := last_OPT (Extra m).

Definition UDPSize (o : OPT) : Z := Class (Hdr o).
Definition SetUDPSize (o : OPT) (size : Z) : OPT :=
  let h := Hdr o in
  mkOPT (mkRR_Header (Name h) (Rrtype h) size (Ttl h) (Rdlength h)) (Option o).

(** [Msg.SetEdns0(udpsize, false)]: append a fresh OPT record. *)
Definition new_OPT (udpsize : Z) : OPT :=
  mkOPT (mkRR_Header "." TypeOPT udpsize 0 0) [].
Definition SetEdns0 (m : Msg) (udpsize : Z) : Msg :=
  set_Extra m (Extra m ++ [RR_OPT (new_OPT udpsize)]).

(** [new(dns.Msg).SetRcode(request, rcode)], which is [SetReply] followed
    by the assignment of the rcode: a reply to [request] that carries its
    id, its opcode, for the opcode of a query also its recursion-desired
    and checking-disabled bits, its first question, the given rcode, and
    no resource record. *)
Definition SetRcode (request : Msg) (rcode : Z) : Msg :=
  let h := Header request in
  let query := bool_decide (Opcode h = OpcodeQuery) in
  mkMsg (mkMsgHdr (Id h) true (Opcode h) false false
           (query && RecursionDesired h) false false false
           (query && CheckingDisabled h) rcode)
        false (take 1 (Questions request)) [] [] [].

(** Apply [g] to the first OPT record of a list of records. *)
Fixpoint map_first_OPT (g : OPT → OPT) (l : list RR) : list RR :=
  match l with
  | [] => []
  | RR_OPT o :: l' => RR_OPT (g o) :: l'
  | r :: l' => r :: map_first_OPT g l'
  end.

(** A change made through the pointer that [IsEdns0] returns: [g] applied
    to the last OPT record of the section, in its place. *)
Definition map_last_OPT (g : OPT → OPT) (l : list RR) : list RR :=
  reverse (map_first_OPT g (reverse l)).

(** The octets of the labels of a domain name in presentation form: an
    escape, which is a backslash (the character 92) followed by three
    digits or by one other character, stands for one octet. *)
Definition backslash : Ascii.ascii := Eval cbv in Ascii.ascii_of_N 92.
Definition isDigit (a : Ascii.ascii) : bool :=
  existsb (Ascii.eqb a) (String.list_ascii_of_string "0123456789").
Fixpoint escapedNameLen (s : string) : nat :=
  match s with
  | EmptyString => 0
  | String a rest =>
      if negb (Ascii.eqb a backslash) then S (escapedNameLen rest)
      else
        match rest with
        | EmptyString => 0
        | String d0 rest1 =>
            match rest1 with
            | String d1 (String d2 rest3) =>
                if isDigit d0 && isDigit d1 && isDigit d2
                then S (escapedNameLen rest3)
                else S (escapedNameLen rest1)
            | _ => S (escapedNameLen rest1)
            end
        end
  end.

(** The encoded length without name compression, which is what [Msg.Len]
    returns for a message whose [Compress] flag is off: twelve octets of
    header, every question, every record.  It is one instance of the
    length function that the proxies are parameterised by below. *)
Definition name_len (s : string) : Z :=
  if String.eqb s "" || String.eqb s "." then 1
  else Z.of_nat (escapedNameLen s) + 1.
Definition option_len (e : EDNS0) : Z := 4 + Z.of_nat (length (Data e)).
Definition rr_len (r : RR) : Z :=
  match r with
  | RR_OPT o => name_len (Name (Hdr o)) + 10 + foldr (λ e n, option_len e + n) 0 (Option o)
  | RR_other h rdata => name_len (Name h) + 10 + Z.of_nat (length rdata)
  end.
Definition section_len (l : list RR) : Z := foldr (λ r n, rr_len r + n) 0 l.
Definition question_len (q : Question) : Z := name_len (Qname q) + 4.
Definition wire_len (m : Msg) : Z :=
  12 + foldr (λ q n, question_len q + n) 0 (Questions m)
     + section_len (Answer m) + section_len (Ns m) + section_len (Extra m).

End dns.

Import dns.

(** The two option codes of the protocol: the capability marker of a query
    and the descriptor of a reply fragment. *)
Definition CAP_CODE : Z := EDNS0LOCALSTART.
Definition FRAG_CODE : Z := EDNS0LOCALSTART + 1.

(** [byte(n)] on a Go [int]: the low eight bits. *)
Definition byte_of_nat (n : nat) : byte :=
  default x00 (Byte.of_N (N.of_nat n mod 256)).
(** [int(b)] on a Go [byte]. *)
Definition int_of_byte (b : byte) : Z := Z.of_N (Byte.to_N b).

(** ** The server proxy *)

Module ServerProxy.
Section WithLen.

(** [Msg.Len] of the library: the encoded length of a message. *)
Variable Len : Msg → Z.

(** [SRVFAIL] builds the message it writes. *)
Definition SRVFAIL (req : Msg) : Msg := SetRcode req RcodeServerFailure.

(** The search for the OPT record in the copy of the additional section:
    the first one is saved and cut out of the copy. *)
Fixpoint extract_OPT (remaining_extra : list RR) : option (OPT * list RR) :=
  match remaining_extra with
  | [] => None
  | RR_OPT o :: rest => Some (o, rest)
  | r :: rest =>
      match extract_OPT rest with
      | Some (o, rest') => Some (o, r :: rest')
      | None => None
      end
  end.

Definition add_Answer (frag : Msg) (r : RR) : Msg := set_Answer frag (Answer frag ++ [r]).
Definition add_Ns (frag : Msg) (r : RR) : Msg := set_Ns frag (Ns frag ++ [r]).
Definition add_Extra (frag : Msg) (r : RR) : Msg := set_Extra frag (Extra frag ++ [r]).

(** One of the three filling loops: append the head of the queue while
    the fragment stays within 512 octets; an append that does not fit is
    taken back and ends the loop.  [add] is the append to the section
    the loop fills. *)
Fixpoint fill (add : Msg → RR → Msg) (frag : Msg) (remaining : list RR)
    : Msg * list RR :=
  match remaining with
  | [] => (frag, [])
  | r :: rest =>
      if Len (add frag r) <=? 512
      then fill add (add frag r) rest
      else (frag, remaining)
  end.

(** The placeholder descriptor and the fragment a loop iteration starts
    from: a copy of the reply with empty sections, and in its additional
    section a copy of the OPT record with the placeholder appended.
    [dns.Copy] is a deep copy, so every fragment owns its OPT record. *)
Definition local_opt : EDNS0 := mkEDNS0 FRAG_CODE [x00; x00].
Definition edns0_rr_copy (edns0_rr : OPT) : OPT :=
  mkOPT (Hdr edns0_rr) (Option edns0_rr ++ [local_opt]).
Definition new_frag (reply : Msg) (edns0_rr : OPT) : Msg :=
  mkMsg (Header reply) (Compress reply) (Questions reply)
        [] [] [RR_OPT (edns0_rr_copy edns0_rr)].

(** The queues of records not yet placed. *)
Record queues := mkQueues {
  remaining_answer : list RR;
  remaining_ns : list RR;
  remaining_extra : list RR }.

Definition queues_empty (q : queues) : bool :=
  bool_decide (length (remaining_answer q) = 0%nat) &&
  bool_decide (length (remaining_ns q) = 0%nat) &&
  bool_decide (length (remaining_extra q) = 0%nat).

Definition queued (q : queues) : nat :=
  (length (remaining_answer q) + length (remaining_ns q)
   + length (remaining_extra q))%nat.

(** The body of the fragment loop up to the test for progress. *)
Definition fill_frag (reply : Msg) (edns0_rr : OPT) (q : queues) : Msg * queues :=
  let '(f1, ra) := fill add_Answer (new_frag reply edns0_rr) (remaining_answer q) in
  let '(f2, rn) := fill add_Ns f1 (remaining_ns q) in
  let '(f3, re) := fill add_Extra f2 (remaining_extra q) in
  (f3, mkQueues ra rn re).

Definition no_RR_added (frag : Msg) : bool :=
  bool_decide (length (Answer frag) = 0%nat) &&
  bool_decide (length (Ns frag) = 0%nat) &&
  bool_decide (length (Extra frag) = 1%nat).

(** The single truncated message of the case without progress. *)
Definition truncated_frag (frag : Msg) : Msg :=
  set_Extra (set_Truncated frag true) [].

(** How the fragment loop ends: with the single truncated message, or
    with the list of fragments. *)
Inductive built :=
| Single (m : Msg)
| Frags (all_frags : list Msg).

(** The fragment loop.  Every iteration that does not return places at
    least one record, so [queued q] bounds the iterations left; [None] is
    fuel that ran out. *)
Fixpoint frag_loop (fuel : nat) (reply : Msg) (edns0_rr : OPT)
    (q : queues) (all_frags : list Msg) : option built :=
  match fuel with
  | O => None
  | S fuel' =>
      let '(f, q') := fill_frag reply edns0_rr q in
      if no_RR_added f then Some (Single (truncated_frag f))
      else
        let all_frags' := all_frags ++ [f] in
        if queues_empty q' then Some (Frags all_frags')
        else frag_loop fuel' reply edns0_rr q' all_frags'
  end.

(** The fix-up of one fragment: every option with the descriptor code in
    the OPT record that [IsEdns0] finds in the fragment gets the data
    [total, n].  That record is the copy made for the fragment unless the
    fragment holds a further OPT record of the reply after it. *)
Definition fixup_option (total n : nat) (opt : EDNS0) : EDNS0 :=
  if decide (Code opt = FRAG_CODE)
  then mkEDNS0 (Code opt) [byte_of_nat total; byte_of_nat n]
  else opt.
Definition fixup_OPT (total n : nat) (o : OPT) : OPT :=
  mkOPT (Hdr o) (fixup_option total n <$> Option o).
Definition fixup_frag (total n : nat) (frag : Msg) : Msg :=
  set_Extra frag (map_last_OPT (fixup_OPT total n) (Extra frag)).
Definition fixup (all_frags : list Msg) : list Msg :=
  imap (fixup_frag (length all_frags)) all_frags.

(** The loop as [frag] enters it, for a reply whose OPT record was
    found. *)
Definition build (reply : Msg) : option built :=
  match extract_OPT (Extra reply) with
  | None => None
  | Some (edns0_rr, extra) =>
      let q := mkQueues (Answer reply) (Ns reply) extra in
      frag_loop (S (queued q)) reply edns0_rr q []
  end.

(** [frag].  A reply without OPT record gets one appended by [SetEdns0],
    but the copy of its additional section was taken before that, so the
    search finds none and [frag] returns no message. *)
Definition frag (reply : Msg) : list Msg :=
  match build reply with
  | None => []
  | Some (Single m) => [m]
  | Some (Frags all_frags) => fixup all_frags
  end.

(** The scan of the query for the capability marker: whether it is
    there, and the query with the first marker removed and the UDP size
    raised. *)
Fixpoint remove_first_code (code : Z) (opts : list EDNS0) : option (list EDNS0) :=
  match opts with
  | [] => None
  | e :: rest =>
      if decide (Code e = code) then Some rest
      else match remove_first_code code rest with
           | Some rest' => Some (e :: rest')
           | None => None
           end
  end.

Definition consume_capability (request : Msg) : bool * Msg :=
  match IsEdns0 request with
  | None => (false, request)
  | Some opt =>
      match remove_first_code EDNS0LOCALSTART (Option opt) with
      | None => (false, request)
      | Some opts =>
          (true,
           set_Extra request
             (map_last_OPT (λ o, mkOPT (Hdr (SetUDPSize o 65535)) opts)
                (Extra request)))
      end
  end.

(** [ServeDNS]: the messages written to the client.  [exchange] is the
    backend: the reply to the proxied query, or [None] for an error. *)
Definition ServeDNS (exchange : Msg → option Msg) (request : Msg) : list Msg :=
  let '(client_supports_appfrag, request') := consume_capability request in
  match exchange request' with
  | None => [SRVFAIL request']
  | Some response =>
      if negb client_supports_appfrag then [response]
      else frag response
  end.

End WithLen.
End ServerProxy.

(** ** The client proxy *)

Module ClientProxy.
Section WithLen.

(** [Msg.Len] of the library: the encoded length of a message. *)
Variable Len : Msg → Z.

(** [SRVFAIL] builds the message it writes. *)
Definition SRVFAIL (req : Msg) : Msg := SetRcode req RcodeServerFailure.

(** The upstream connection is the list of messages that [ReadMsg] still
    returns; a read from the empty list is the read error (the deadline
    has passed).  [wait_for_response] returns the first message with the
    id of the request and what is left of the connection, or [None] when
    the read failed and it has written [SRVFAIL]. *)
Fixpoint wait_for_response (request : Msg) (conn : list Msg)
    : option Msg * list Msg :=
  match conn with
  | [] => (None, [])
  | response :: conn' =>
      if decide (Id (Header response) = Id (Header request))
      then (Some response, conn')
      else wait_for_response request conn'
  end.

(** The first option with the given code. *)
Fixpoint first_option (code : Z) (opts : list EDNS0) : option EDNS0 :=
  match opts with
  | [] => None
  | opt :: rest =>
      if decide (Code opt = code) then Some opt else first_option code rest
  end.

(** [get_fragment_info].  [None] is the run-time panic of an index out
    of range in [Data[0]] or [Data[1]]. *)
Definition get_fragment_info (msg : Msg) : option (Z * Z) :=
  match IsEdns0 msg with
  | None => Some (-1, -1)
  | Some resp_edns0 =>
      match first_option FRAG_CODE (Option resp_edns0) with
      | None => Some (-1, -1)
      | Some opt =>
          num_frags ← Data opt !! 0%nat;
          sequence_num ← Data opt !! 1%nat;
          Some (int_of_byte num_frags, int_of_byte sequence_num)
      end
  end.

(** The head of [ServeDNS]: the buffer size the client advertised and the
    query sent upstream, which carries the capability marker. *)
Definition client_buf_size (request : Msg) : Z :=
  match IsEdns0 request with
  | None => 512
  | Some opt => UDPSize opt
  end.

Definition proxy_req (request : Msg) : Msg :=
  let m := match IsEdns0 request with
           | None => SetEdns0 request 512
           | Some _ => request
           end in
  set_Extra m
    (map_last_OPT (λ opt, mkOPT (Hdr opt) (Option opt ++ [mkEDNS0 EDNS0LOCALSTART []]))
       (Extra m)).

(** How the wait for the fragments ends. *)
Inductive collected :=
| Collected (frags : gmap Z Msg)
| ReadFailed
| IndexPanic.

(** The loop that waits for all fragments.  Every iteration that goes on
    has read a message, so the length of the connection bounds the
    iterations; [None] is fuel that ran out. *)
Fixpoint collect (fuel : nat) (request : Msg) (num_frags : Z)
    (frags : gmap Z Msg) (conn : list Msg) : option collected :=
  if bool_decide (Z.of_nat (size frags) < num_frags) then
    match fuel with
    | O => None
    | S fuel' =>
        match wait_for_response request conn with
        | (None, _) => Some ReadFailed
        | (Some response, conn') =>
            match get_fragment_info response with
            | None => Some IndexPanic
            | Some (_, sequence_num) =>
                collect fuel' request num_frags
                  (<[sequence_num := response]> frags) conn'
            end
        end
    end
  else Some (Collected frags).

(** One step of the rebuilding loop: the sections of a fragment appended
    to the reply, without the OPT records of its additional section. *)
Definition append_frag (rebuilt_reply frag : Msg) : Msg :=
  mkMsg (Header rebuilt_reply) (Compress rebuilt_reply) (Questions rebuilt_reply)
    (Answer rebuilt_reply ++ Answer frag)
    (Ns rebuilt_reply ++ Ns frag)
    (Extra rebuilt_reply ++ filter (λ r, is_OPT r = false) (Extra frag)).

Fixpoint rebuild_loop (frags : gmap Z Msg) (ns : list Z) (rebuilt_reply : Msg)
    : option Msg :=
  match ns with
  | [] => Some rebuilt_reply
  | n :: ns' =>
      match frags !! n with
      | None => None
      | Some frag => rebuild_loop frags ns' (append_frag rebuilt_reply frag)
      end
  end.

(** The rebuilding of the reply: fragment 0, then the fragments
    [1 .. num_frags-1]; [None] when one of them is missing. *)
Definition rebuild (frags : gmap Z Msg) (num_frags : Z) : option Msg :=
  match frags !! 0 with
  | None => None
  | Some rebuilt_reply => rebuild_loop frags (seqZ 1 (num_frags - 1)) rebuilt_reply
  end.

(** The check against the buffer size of the client. *)
Definition truncate (rebuilt_reply : Msg) : Msg :=
  set_Extra (set_Ns (set_Answer (set_Truncated rebuilt_reply true) []) []) [].
Definition enforce (client_buf_size : Z) (rebuilt_reply : Msg) : Msg :=
  if bool_decide (Len rebuilt_reply > client_buf_size)
  then truncate rebuilt_reply
  else rebuilt_reply.

(** What the proxy has in hand once the replies are read. *)
Inductive received :=
| Unfragmented (response : Msg)
| Rebuilt (rebuilt_reply : Msg)
| Failed
| Crashed.

(** [ServeDNS] from the first wait to the end of the rebuilding loop. *)
Definition receive (request : Msg) (conn : list Msg) : option received :=
  match wait_for_response request conn with
  | (None, _) => Some Failed
  | (Some response, conn') =>
      match get_fragment_info response with
      | None => Some Crashed
      | Some (num_frags, sequence_num) =>
          if decide (num_frags = -1) then Some (Unfragmented response)
          else
            match collect (S (length conn')) request num_frags
                    {[ sequence_num := response ]} conn' with
            | None => None
            | Some IndexPanic => Some Crashed
            | Some ReadFailed => Some Failed
            | Some (Collected frags) =>
                match rebuild frags num_frags with
                | None => Some Failed
                | Some rebuilt_reply => Some (Rebuilt rebuilt_reply)
                end
            end
      end
  end.

(** The upstream side of one transaction. *)
Inductive upstream :=
| DialError
| WriteError
| Connected (conn : list Msg).

(** What a call of [ServeDNS] does: it writes messages to the client and
    returns, or it panics. *)
Inductive outcome :=
| Written (msgs : list Msg)
| Panicked.

Definition ServeDNS (up : upstream) (request : Msg) : option outcome :=
  match up with
  | DialError => Some (Written [SRVFAIL request])
  | WriteError => Some (Written [SRVFAIL request])
  | Connected conn =>
      match receive request conn with
      | None => None
      | Some Failed => Some (Written [SRVFAIL request])
      | Some Crashed => Some Panicked
      | Some (Unfragmented response) => Some (Written [response])
      | Some (Rebuilt rebuilt_reply) =>
          Some (Written [enforce (client_buf_size request) rebuilt_reply])
      end
  end.

End WithLen.
End ClientProxy.

(** ** Concrete messages *)

Module Examples.

Definition hdr (id : Z) : MsgHdr :=
  mkMsgHdr id true OpcodeQuery false false true true false false false RcodeSuccess.
Definition question : Question := mkQuestion "a.example." 16 1.
Definition query_hdr (id : Z) : MsgHdr :=
  mkMsgHdr id false OpcodeQuery false false true false false false false RcodeSuccess.

(** A record of some other type with [n] octets of data. *)
Definition txt (n : nat) : RR :=
  RR_other (mkRR_Header "a.example." 16 1 300 (Z.of_nat n)) (replicate n x00).

(** The OPT record of a backend reply: 4096 octets advertised, no
    option. *)
Definition backend_opt : OPT := mkOPT (mkRR_Header "." TypeOPT 4096 0 0) [].

Definition reply (id : Z) (answer ns extra : list RR) : Msg :=
  mkMsg (hdr id) false [question] answer ns extra.

(** A query without OPT record, and the same query as the client proxy
    sends it on: with the capability marker. *)
Definition plain_query (id : Z) : Msg :=
  mkMsg (query_hdr id) false [question] [] [] [].
Definition marked_query (id : Z) : Msg :=
  mkMsg (query_hdr id) false [question] [] []
    [RR_OPT (mkOPT (mkRR_Header "." TypeOPT 512 0 0) [mkEDNS0 CAP_CODE []])].

(** Five answers of 200 octets of data each, one authority record and one
    additional record before the OPT record. *)
Definition medium_reply : Msg :=
  reply 7 (replicate 5 (txt 200)) [txt 20] [txt 30; RR_OPT backend_opt].

(** 256 answers to a question with a name of 101 octets, each with 80
    octets of data; no two of them fit into one fragment, and the reply
    has 49024 octets, which a backend can send in one datagram. *)
Definition long_name : string :=
  "aaaaaaaaaaaaaaaaaaaaaaaaaaaaaaaaaaaaaaaaaaaaaaaaa.bbbbbbbbbbbbbbbbbbbbbbbbbbbbbbbbbbbbbbbbbbbbbbbbb.".
Definition long_question : Question := mkQuestion long_name 16 1.
Definition long_txt (n : nat) : RR :=
  RR_other (mkRR_Header long_name 16 1 300 (Z.of_nat n)) (replicate n x00).
Definition big_reply : Msg :=
  mkMsg (hdr 7) false [long_question] (replicate 256 (long_txt 80)) []
    [RR_OPT backend_opt].

(** A reply without OPT record. *)
Definition reply_without_opt : Msg := reply 7 [txt 20] [] [].

(** A reply whose second answer is too large for any fragment. *)
Definition oversize_reply : Msg :=
  reply 7 [txt 20; txt 700] [txt 20] [RR_OPT backend_opt].

(** A reply that fits into 512 octets. *)
Definition small_reply : Msg := reply 7 [txt 20] [] [RR_OPT backend_opt].

(** A reply whose OPT record holds an option with the code of the
    descriptor and no data, and whose one answer fills a fragment to the
    last octet. *)
Definition stale_opt : OPT :=
  mkOPT (mkRR_Header "." TypeOPT 4096 0 0) [mkEDNS0 FRAG_CODE []].
Definition tight_reply : Msg := reply 7 [txt 443] [] [RR_OPT stale_opt].

(** A reply with a second OPT record, which comes to stand in the second
    of its two fragments. *)
Definition second_opt : OPT := mkOPT (mkRR_Header "." TypeOPT 1232 0 0) [].
Definition two_OPT_reply : Msg :=
  reply 7 (replicate 3 (txt 200)) []
    [RR_OPT backend_opt; txt 30; RR_OPT second_opt].

(** The fragments of the reply with five answers, of the reply with 256
    answers and of the reply with the one large answer, before the
    fix-up. *)
Definition medium_frags : list Msg :=
  Eval vm_compute in
    match ServerProxy.build wire_len medium_reply with
    | Some (ServerProxy.Frags fs) => fs
    | _ => []
    end.
Definition big_frags : list Msg :=
  Eval vm_compute in
    match ServerProxy.build wire_len big_reply with
    | Some (ServerProxy.Frags fs) => fs
    | _ => []
    end.
Definition tight_frags : list Msg :=
  Eval vm_compute in
    match ServerProxy.build wire_len tight_reply with
    | Some (ServerProxy.Frags fs) => fs
    | _ => []
    end.

(** What the client proxy rebuilds from the fragments of the reply with
    five answers. *)
Definition medium_rebuilt : Msg :=
  Eval vm_compute in
    match ClientProxy.receive (plain_query 7)
            (ServerProxy.frag wire_len medium_reply) with
    | Some (ClientProxy.Rebuilt m) => m
    | _ => plain_query 7
    end.

(** A message with the descriptor [total, seq] and one answer. *)
Definition fragment (total seq : byte) : Msg :=
  reply 7 [txt 20] []
    [RR_OPT (mkOPT (mkRR_Header "." TypeOPT 4096 0 0)
               [mkEDNS0 FRAG_CODE [total; seq]])].

(** A fragment whose descriptor has one data octet only. *)
Definition short_descriptor : Msg :=
  reply 7 [txt 20] []
    [RR_OPT (mkOPT (mkRR_Header "." TypeOPT 4096 0 0) [mkEDNS0 FRAG_CODE [x03]])].

End Examples.

(** ** Vocabulary of the statements *)

Module Spec.
Import ServerProxy.

(** The records one iteration of the fragment loop places, by section,
    and the fragment that holds them. *)
Record piece := mkPiece {
  p_answer : list RR; p_ns : list RR; p_extra : list RR }.

Definition mk_frag (reply : Msg) (edns0_rr : OPT) (p : piece) : Msg :=
  mkMsg (Header reply) (Compress reply) (Questions reply)
    (p_answer p) (p_ns p) (RR_OPT (edns0_rr_copy edns0_rr) :: p_extra p).

Definition empty_piece (p : piece) : Prop :=
  p_answer p = [] ∧ p_ns p = [] ∧ p_extra p = [].

(** The descriptor option of fragment [n] out of [total]. *)
Definition descriptor (total n : nat) : EDNS0 :=
  mkEDNS0 FRAG_CODE [byte_of_nat total; byte_of_nat n].

(** The OPT record of a message with [opt] appended to its options. *)
Definition with_option (opt : EDNS0) (o : OPT) : OPT :=
  mkOPT (Hdr o) (Option o ++ [opt]).

(** A rewriting of the options of the OPT record of a message. *)
Definition map_options (g : EDNS0 → EDNS0) (m : Msg) : Msg :=
  set_Extra m (map_last_OPT (λ o, mkOPT (Hdr o) (g <$> Option o)) (Extra m)).

(** What the statements on sizes need of [Msg.Len]: the octets of an
    option's data count by their number only. *)
Definition Len_counts_option_data (Len : Msg → Z) : Prop :=
  ∀ (g : EDNS0 → EDNS0) (m : Msg) (o : OPT),
    IsEdns0 m = Some o →
    Forall (λ e, Code (g e) = Code e ∧ length (Data (g e)) = length (Data e))
           (Option o) →
    Len (map_options g m) = Len m.

(** The record the fragment loop tries first at the start of an
    iteration, with the append for its section. *)
Definition next_RR (q : queues) : option ((Msg → RR → Msg) * RR) :=
  match remaining_answer q, remaining_ns q, remaining_extra q with
  | r :: _, _, _ => Some (add_Answer, r)
  | [], r :: _, _ => Some (add_Ns, r)
  | [], [], r :: _ => Some (add_Extra, r)
  | [], [], [] => None
  end.

(** The states of the queues at the start of the iterations of the
    fragment loop of [frag reply]. *)
Inductive at_iteration (Len : Msg → Z) (reply : Msg) (edns0_rr : OPT)
    (extra : list RR) : queues → Prop :=
| at_first :
    at_iteration Len reply edns0_rr extra
      (mkQueues (Answer reply) (Ns reply) extra)
| at_next q f q' :
    at_iteration Len reply edns0_rr extra q →
    fill_frag Len reply edns0_rr q = (f, q') →
    no_RR_added f = false →
    queues_empty q' = false →
    at_iteration Len reply edns0_rr extra q'.

(** No queue has a head that fits into a fragment with nothing but the
    copy of the OPT record. *)
Definition stuck (Len : Msg → Z) (reply : Msg) (edns0_rr : OPT) (q : queues) : Prop :=
  (∀ r l, remaining_answer q = r :: l →
          512 < Len (add_Answer (new_frag reply edns0_rr) r)) ∧
  (∀ r l, remaining_ns q = r :: l →
          512 < Len (add_Ns (new_frag reply edns0_rr) r)) ∧
  (∀ r l, remaining_extra q = r :: l →
          512 < Len (add_Extra (new_frag reply edns0_rr) r)).

(** The descriptors read off a list of messages. *)
Definition descriptors (l : list Msg) : list (option (Z * Z)) :=
  ClientProxy.get_fragment_info <$> l.

(** The sequence number a fragment carries, and the fragment under that
    number, as the client proxy stores it. *)
Definition seq_of (f : Msg) : Z :=
  match ClientProxy.get_fragment_info f with
  | Some (_, sequence_num) => sequence_num
  | None => -1
  end.
Definition stored (f : Msg) : Z * Msg := (seq_of f, f).

(** A reply of the data model: one OPT record at most, and none of its
    options has the code of the descriptor. *)
Definition no_descriptor (o : OPT) : Prop :=
  Forall (λ e, Code e ≠ FRAG_CODE) (Option o).
Definition descriptors_two_octets (o : OPT) : Prop :=
  Forall (λ e, Code e = FRAG_CODE → length (Data e) = 2%nat) (Option o).

(** Every option with the code of the descriptor, in whatever OPT record
    of a section, has two octets of data. *)
Definition all_descriptors_two_octets (l : list RR) : Prop :=
  Forall (λ r, match r with
               | RR_OPT o => descriptors_two_octets o
               | RR_other _ _ => True
               end) l.

(** The query as the backend gets it from the pair of proxies: marked by
    the client proxy, then stripped of the marker by the server proxy. *)
Definition upstream_query (request : Msg) : Msg :=
  (ServerProxy.consume_capability (ClientProxy.proxy_req request)).2.

(** The two proxies on one transaction: the client proxy sends its query
    on, and the messages the server proxy writes for it are what the client
    proxy reads, in the order they were written and none lost. *)
Definition proxy_pair (Len : Msg → Z) (exchange : Msg → option Msg)
    (request : Msg) : option ClientProxy.outcome :=
  ClientProxy.ServeDNS Len
    (ClientProxy.Connected
       (ServerProxy.ServeDNS Len exchange (ClientProxy.proxy_req request)))
    request.

End Spec.

(** ** Octets *)

Section Octets.

Lemma int_of_byte_of_nat (n : nat) :
  int_of_byte (byte_of_nat n) = Z.of_nat n mod 256.
Proof.
  unfold int_of_byte, byte_of_nat.
  destruct (Byte.of_N (N.of_nat n mod 256)) as [b|] eqn:E.
  - apply Byte.to_of_N in E. simpl. rewrite E.
    rewrite N2Z.inj_mod, nat_N_Z. reflexivity.
  - apply Byte.of_N_None_iff in E.
    pose proof (N.mod_upper_bound (N.of_nat n) 256). lia.
Qed.

Lemma int_of_byte_of_small_nat (n : nat) :
  (n ≤ 255)%nat → int_of_byte (byte_of_nat n) = Z.of_nat n.
Proof.
  intros H. rewrite int_of_byte_of_nat. apply Z.mod_small. lia.
Qed.

Lemma int_of_byte_range (b : byte) : 0 ≤ int_of_byte b ≤ 255.
Proof.
  unfold int_of_byte. pose proof (Byte.to_N_bounded b). lia.
Qed.

End Octets.

(** ** The OPT record that [IsEdns0] finds *)

Module OPTFacts.

Lemma first_OPT_app l l' :
  first_OPT (l ++ l') = match first_OPT l with
                        | Some o => Some o
                        | None => first_OPT l'
                        end.
Proof. induction l as [|[o|h d] l IH]; simpl; auto. Qed.

Lemma first_OPT_None l :
  first_OPT l = None ↔ Forall (λ r, is_OPT r = false) l.
Proof.
  induction l as [|[o|h d] l IH]; simpl.
  - split; [constructor|done].
  - split; [done|]. by intros [? _]%Forall_cons.
  - rewrite IH, Forall_cons. split; [by split|by intros [_ ?]].
Qed.

Lemma first_OPT_Some l o :
  first_OPT l = Some o →
  ∃ pre post, l = pre ++ RR_OPT o :: post ∧ Forall (λ r, is_OPT r = false) pre.
Proof.
  induction l as [|[o'|h d] l IH]; simpl; [done| |].
  - intros [= ->]. by exists [], l.
  - intros H. destruct (IH H) as (pre & post & -> & Hpre).
    exists (RR_other h d :: pre), post. split; [done|]. by constructor.
Qed.

Lemma map_first_OPT_middle g pre o post :
  Forall (λ r, is_OPT r = false) pre →
  map_first_OPT g (pre ++ RR_OPT o :: post) = pre ++ RR_OPT (g o) :: post.
Proof.
  induction 1 as [|[o'|h d] pre Hr _ IH]; simpl; [done|done|].
  by rewrite IH.
Qed.

Lemma map_first_OPT_None g l :
  Forall (λ r, is_OPT r = false) l → map_first_OPT g l = l.
Proof.
  induction 1 as [|[o'|h d] l Hr _ IH]; simpl; [done|done|].
  by rewrite IH.
Qed.

Lemma reverse_middle (pre : list RR) r post :
  reverse (pre ++ r :: post) = reverse post ++ r :: reverse pre.
Proof. by rewrite reverse_app, reverse_cons, <- app_assoc. Qed.

Lemma last_OPT_None l :
  last_OPT l = None ↔ Forall (λ r, is_OPT r = false) l.
Proof. unfold last_OPT. by rewrite first_OPT_None, Forall_reverse. Qed.

Lemma last_OPT_app l l' :
  last_OPT (l ++ l') = match last_OPT l' with
                       | Some o => Some o
                       | None => last_OPT l
                       end.
Proof. unfold last_OPT. by rewrite reverse_app, first_OPT_app. Qed.

Lemma last_OPT_middle pre o post :
  Forall (λ r, is_OPT r = false) post →
  last_OPT (pre ++ RR_OPT o :: post) = Some o.
Proof.
  intros Hpost. unfold last_OPT. rewrite reverse_middle, first_OPT_app.
  by rewrite (proj2 (first_OPT_None _)) by by apply Forall_reverse.
Qed.

Lemma last_OPT_Some l o :
  last_OPT l = Some o →
  ∃ pre post, l = pre ++ RR_OPT o :: post ∧ Forall (λ r, is_OPT r = false) post.
Proof.
  unfold last_OPT. intros H.
  apply first_OPT_Some in H as (pre & post & Hl & Hpre).
  exists (reverse post), (reverse pre). split; [|by apply Forall_reverse].
  by rewrite <- reverse_middle, <- Hl, reverse_involutive.
Qed.

Lemma last_OPT_elem l o : last_OPT l = Some o → RR_OPT o ∈ l.
Proof.
  intros (pre & post & -> & _)%last_OPT_Some.
  apply elem_of_app. right. apply list_elem_of_here.
Qed.

Lemma map_last_OPT_middle g pre o post :
  Forall (λ r, is_OPT r = false) post →
  map_last_OPT g (pre ++ RR_OPT o :: post) = pre ++ RR_OPT (g o) :: post.
Proof.
  intros Hpost. unfold map_last_OPT.
  rewrite reverse_middle, map_first_OPT_middle by by apply Forall_reverse.
  by rewrite reverse_middle, !reverse_involutive.
Qed.

Lemma map_last_OPT_None g l :
  Forall (λ r, is_OPT r = false) l → map_last_OPT g l = l.
Proof.
  intros Hl. unfold map_last_OPT.
  rewrite map_first_OPT_None by by apply Forall_reverse.
  apply reverse_involutive.
Qed.

Lemma last_OPT_map_last_OPT g l :
  last_OPT (map_last_OPT g l) = g <$> last_OPT l.
Proof.
  destruct (last_OPT l) as [o|] eqn:E.
  - apply last_OPT_Some in E as (pre & post & -> & Hpost).
    by rewrite map_last_OPT_middle, last_OPT_middle by done.
  - apply last_OPT_None in E. rewrite map_last_OPT_None by done.
    by apply last_OPT_None.
Qed.

Lemma map_last_OPT_const g l o :
  last_OPT l = Some o → map_last_OPT g l = map_last_OPT (λ _, g o) l.
Proof.
  intros (pre & post & -> & Hpost)%last_OPT_Some.
  by rewrite !map_last_OPT_middle by done.
Qed.

Lemma map_last_OPT_compose g h l :
  map_last_OPT g (map_last_OPT h l) = map_last_OPT (λ o, g (h o)) l.
Proof.
  destruct (last_OPT l) as [o|] eqn:E.
  - apply last_OPT_Some in E as (pre & post & -> & Hpost).
    by rewrite !map_last_OPT_middle by done.
  - apply last_OPT_None in E. rewrite (map_last_OPT_None h) by done.
    by rewrite !map_last_OPT_None by done.
Qed.

(** A section with one OPT record: the scan from either end finds it. *)
Lemma last_OPT_cons_no_OPT o l :
  Forall (λ r, is_OPT r = false) l → last_OPT (RR_OPT o :: l) = Some o.
Proof. apply (last_OPT_middle []). Qed.

Lemma map_last_OPT_cons_no_OPT g o l :
  Forall (λ r, is_OPT r = false) l →
  map_last_OPT g (RR_OPT o :: l) = RR_OPT (g o) :: l.
Proof. apply (map_last_OPT_middle g []). Qed.

Lemma last_OPT_snoc l o : last_OPT (l ++ [RR_OPT o]) = Some o.
Proof. by apply last_OPT_middle. Qed.

Lemma map_last_OPT_snoc g l o :
  map_last_OPT g (l ++ [RR_OPT o]) = l ++ [RR_OPT (g o)].
Proof. by apply map_last_OPT_middle. Qed.

End OPTFacts.

(** ** The filling loops and the fragment loop *)

Module FragFacts.
Import ServerProxy Spec.

Section WithLen.
Variable Len : Msg → Z.

Lemma fill_spec add f q f' q' :
  fill Len add f q = (f', q') →
  ∃ taken, q = taken ++ q' ∧ f' = foldl add f taken ∧
    (taken = [] ∨ Len f' ≤ 512) ∧
    match q' with [] => True | r :: _ => 512 < Len (add f' r) end.
Proof.
  revert f. induction q as [|r q IH]; intros f; simpl.
  - intros [= <- <-]. exists []. auto.
  - destruct (Z.leb_spec (Len (add f r)) 512) as [Hle|Hgt].
    + intros H. destruct (IH _ H) as (taken & -> & -> & Hfit & Hq').
      exists (r :: taken). repeat split; auto.
      right. destruct Hfit as [->|]; auto.
    + intros [= <- <-]. exists []. auto.
Qed.

Lemma foldl_add_Answer f l :
  foldl add_Answer f l = set_Answer f (Answer f ++ l).
Proof.
  revert f. induction l as [|r l IH]; intros f; simpl.
  - destruct f; unfold set_Answer; simpl. by rewrite app_nil_r.
  - rewrite IH. destruct f; unfold add_Answer, set_Answer; simpl.
    by rewrite <- app_assoc.
Qed.

Lemma foldl_add_Ns f l : foldl add_Ns f l = set_Ns f (Ns f ++ l).
Proof.
  revert f. induction l as [|r l IH]; intros f; simpl.
  - destruct f; unfold set_Ns; simpl. by rewrite app_nil_r.
  - rewrite IH. destruct f; unfold add_Ns, set_Ns; simpl.
    by rewrite <- app_assoc.
Qed.

Lemma foldl_add_Extra f l : foldl add_Extra f l = set_Extra f (Extra f ++ l).
Proof.
  revert f. induction l as [|r l IH]; intros f; simpl.
  - destruct f; unfold set_Extra; simpl. by rewrite app_nil_r.
  - rewrite IH. destruct f; unfold add_Extra, set_Extra; simpl.
    by rewrite <- app_assoc.
Qed.

(** One iteration: the records taken from the three queues make the
    fragment; it fits unless nothing was taken; and the head of every
    queue that is left did not fit. *)
Lemma fill_frag_spec reply e q f q' :
  fill_frag Len reply e q = (f, q') →
  ∃ p, f = mk_frag reply e p ∧
    remaining_answer q = p_answer p ++ remaining_answer q' ∧
    remaining_ns q = p_ns p ++ remaining_ns q' ∧
    remaining_extra q = p_extra p ++ remaining_extra q' ∧
    (empty_piece p ∨ Len f ≤ 512).
Proof.
  unfold fill_frag.
  destruct (fill Len add_Answer _ _) as [f1 ra] eqn:E1.
  destruct (fill Len add_Ns f1 _) as [f2 rn] eqn:E2.
  destruct (fill Len add_Extra f2 _) as [f3 re] eqn:E3.
  intros [= <- <-]; simpl.
  apply fill_spec in E1 as (ta & Ha & -> & F1 & _).
  apply fill_spec in E2 as (tn & Hn & -> & F2 & _).
  apply fill_spec in E3 as (te & He & -> & F3 & _).
  exists (mkPiece ta tn te). simpl.
  rewrite foldl_add_Answer, foldl_add_Ns, foldl_add_Extra in *.
  unfold set_Extra, set_Ns, set_Answer, new_frag, mk_frag, empty_piece in *.
  simpl in *. repeat split; auto.
  destruct F3 as [->|]; [|by right].
  destruct F2 as [->|F2]; [|by right].
  destruct F1 as [->|F1]; [by left|by right].
Qed.

Lemma no_RR_added_mk_frag reply e p :
  no_RR_added (mk_frag reply e p) = true ↔ empty_piece p.
Proof.
  unfold no_RR_added, empty_piece; simpl.
  rewrite !andb_true_iff, !bool_decide_eq_true.
  destruct p as [[|] [|] [|]]; simpl; intuition (congruence || lia).
Qed.

Lemma mk_frag_empty reply e p :
  empty_piece p → mk_frag reply e p = new_frag reply e.
Proof. destruct p; intros (? & ? & ?); simpl in *; by subst. Qed.

Lemma queues_empty_true q :
  queues_empty q = true ↔
  remaining_answer q = [] ∧ remaining_ns q = [] ∧ remaining_extra q = [].
Proof.
  unfold queues_empty.
  rewrite !andb_true_iff, !bool_decide_eq_true, !length_zero_iff_nil.
  tauto.
Qed.

Lemma no_RR_added_false reply e p :
  no_RR_added (mk_frag reply e p) = false → ¬ empty_piece p.
Proof.
  intros H Hp. apply (proj2 (no_RR_added_mk_frag reply e p)) in Hp.
  congruence.
Qed.

(** An iteration that has added a record leaves fewer records queued. *)
Lemma fill_frag_progress reply e q f q' :
  fill_frag Len reply e q = (f, q') →
  no_RR_added f = false →
  (queued q' < queued q)%nat.
Proof.
  intros H Hadd. apply fill_frag_spec in H as (p & -> & Ha & Hn & He & _).
  pose proof (no_RR_added_false _ _ _ Hadd) as Hp.
  unfold queued. rewrite Ha, Hn, He, !length_app.
  destruct p as [[|] [|] [|]]; simpl in *; try lia.
  destruct Hp. by repeat split.
Qed.

(** The fragment loop never runs out of the fuel [frag] gives it. *)
Lemma frag_loop_total fuel reply e q acc :
  (queued q < fuel)%nat → is_Some (frag_loop Len fuel reply e q acc).
Proof.
  revert q acc. induction fuel as [|fuel IH]; intros q acc Hq; [lia|].
  simpl. destruct (fill_frag Len reply e q) as [f q'] eqn:E.
  destruct (no_RR_added f) eqn:Hadd; [by eexists|].
  destruct (queues_empty q'); [by eexists|].
  apply IH. pose proof (fill_frag_progress _ _ _ _ _ E Hadd). lia.
Qed.

(** The single message the loop can end with. *)
Lemma frag_loop_Single fuel reply e q acc m :
  frag_loop Len fuel reply e q acc = Some (Single m) →
  m = truncated_frag (new_frag reply e).
Proof.
  revert q acc. induction fuel as [|fuel IH]; intros q acc; [done|].
  simpl. destruct (fill_frag Len reply e q) as [f q'] eqn:E.
  destruct (no_RR_added f) eqn:Hadd.
  - intros [= <-]. apply fill_frag_spec in E as (p & -> & _).
    apply no_RR_added_mk_frag in Hadd. by rewrite mk_frag_empty.
  - destruct (queues_empty q'); [done|]. apply IH.
Qed.

(** The fragments the loop can end with: they hold the queued records
    in order, each holds one at least, and each fits. *)
Lemma frag_loop_Frags fuel reply e q acc fs :
  frag_loop Len fuel reply e q acc = Some (Frags fs) →
  ∃ ps, fs = acc ++ (mk_frag reply e <$> ps) ∧ ps ≠ [] ∧
    Forall (λ p, ¬ empty_piece p ∧ Len (mk_frag reply e p) ≤ 512) ps ∧
    remaining_answer q = concat (p_answer <$> ps) ∧
    remaining_ns q = concat (p_ns <$> ps) ∧
    remaining_extra q = concat (p_extra <$> ps).
Proof.
  revert q acc. induction fuel as [|fuel IH]; intros q acc; [done|].
  simpl. destruct (fill_frag Len reply e q) as [f q'] eqn:E.
  destruct (no_RR_added f) eqn:Hadd; [done|].
  apply fill_frag_spec in E as (p & -> & Ha & Hn & He & Hfit).
  pose proof (no_RR_added_false _ _ _ Hadd) as Hp.
  destruct Hfit as [|Hfit]; [done|].
  destruct (queues_empty q') eqn:Hq'.
  - intros [= <-]. apply queues_empty_true in Hq' as (Ea & En & Ee).
    exists [p]. simpl. rewrite Ha, Hn, He, Ea, En, Ee.
    repeat split; auto.
  - intros H. apply IH in H as (ps & -> & _ & Hall & Ea & En & Ee).
    exists (p :: ps). simpl. rewrite <- app_assoc. simpl.
    rewrite Ha, Hn, He, Ea, En, Ee. repeat split; auto.
Qed.

Lemma extract_OPT_None l : extract_OPT l = None ↔ first_OPT l = None.
Proof.
  induction l as [|[o|h d] l IH]; simpl; [done|done|].
  destruct (extract_OPT l) as [[? ?]|]; rewrite <- IH; split; congruence.
Qed.

Lemma extract_OPT_Some l o rest :
  extract_OPT l = Some (o, rest) →
  first_OPT l = Some o ∧
  ∃ pre post, l = pre ++ RR_OPT o :: post ∧ rest = pre ++ post ∧
              Forall (λ r, is_OPT r = false) pre.
Proof.
  revert rest. induction l as [|[o'|h d] l IH]; intros rest; simpl; [done| |].
  - intros [= -> ->]. split; [done|]. exists [], rest. by repeat split.
  - destruct (extract_OPT l) as [[o' rest']|]; [|done].
    intros [= -> <-]. destruct (IH _ eq_refl) as (H1 & pre & post & H3 & H4 & H5).
    split; [done|]. exists (RR_other h d :: pre), post. subst.
    repeat split; by constructor.
Qed.

Lemma extract_OPT_Permutation l o rest :
  extract_OPT l = Some (o, rest) → l ≡ₚ RR_OPT o :: rest.
Proof.
  intros H. apply extract_OPT_Some in H as (_ & pre & post & -> & -> & _).
  by rewrite Permutation_middle.
Qed.

(** [frag] always comes back: the loop is given enough fuel, and only a
    reply without OPT record yields nothing to send. *)
Lemma build_None reply :
  build Len reply = None ↔ IsEdns0 reply = None.
Proof.
  unfold build, IsEdns0.
  rewrite OPTFacts.last_OPT_None, <- OPTFacts.first_OPT_None, <- extract_OPT_None.
  destruct (extract_OPT (Extra reply)) as [[e extra]|]; [|done].
  split; [|done]. intros H.
  destruct (frag_loop_total (S (queued (mkQueues (Answer reply) (Ns reply) extra)))
              reply e (mkQueues (Answer reply) (Ns reply) extra) []) as [b Hb];
    [lia|congruence].
Qed.

End WithLen.
End FragFacts.

(** ** The fix-up and the descriptors of the fragments *)

Module FixupFacts.
Import ServerProxy Spec.

Lemma fixup_option_descriptor total n o :
  Code o = FRAG_CODE → fixup_option total n o = descriptor total n.
Proof.
  intros E. unfold fixup_option, descriptor. by rewrite decide_True, E.
Qed.

Lemma fixup_option_other total n o :
  Code o ≠ FRAG_CODE → fixup_option total n o = o.
Proof. intros E. unfold fixup_option. by rewrite decide_False. Qed.

Lemma first_option_fixup total n opts :
  ClientProxy.first_option FRAG_CODE
    (fixup_option total n <$> (opts ++ [local_opt]))
  = Some (descriptor total n).
Proof.
  induction opts as [|o opts IH]; [reflexivity|].
  rewrite <- app_comm_cons, fmap_cons.
  destruct (decide (Code o = FRAG_CODE)) as [E|E].
  - rewrite fixup_option_descriptor by done. reflexivity.
  - rewrite fixup_option_other by done. simpl.
    by rewrite decide_False.
Qed.

Lemma fixup_option_untouched total n opts :
  Forall (λ e, Code e ≠ FRAG_CODE) opts →
  fixup_option total n <$> opts = opts.
Proof.
  induction 1 as [|o opts Ho _ IH]; [done|].
  by rewrite fmap_cons, fixup_option_other, IH.
Qed.

(** The fix-up changes the additional section only. *)
Lemma fixup_frag_sections total n f :
  Header (fixup_frag total n f) = Header f ∧
  Questions (fixup_frag total n f) = Questions f ∧
  Answer (fixup_frag total n f) = Answer f ∧
  Ns (fixup_frag total n f) = Ns f.
Proof. done. Qed.

(** In a fragment that holds no OPT record of the reply, the record the
    fix-up changes is the copy made for the fragment. *)
Lemma fixup_frag_mk_frag total n reply e p :
  Forall (λ r, is_OPT r = false) (p_extra p) →
  fixup_frag total n (mk_frag reply e p) =
  mkMsg (Header reply) (Compress reply) (Questions reply)
    (p_answer p) (p_ns p)
    (RR_OPT (fixup_OPT total n (edns0_rr_copy e)) :: p_extra p).
Proof.
  intros Hp. unfold fixup_frag, mk_frag, set_Extra. cbn [Header Compress Questions Answer Ns Extra].
  by rewrite OPTFacts.map_last_OPT_cons_no_OPT.
Qed.

(** The descriptor such a fragment carries after the fix-up: the two
    counts, each cut to its low eight bits. *)
Lemma get_fragment_info_fixup total n reply e p :
  Forall (λ r, is_OPT r = false) (p_extra p) →
  ClientProxy.get_fragment_info (fixup_frag total n (mk_frag reply e p))
  = Some (Z.of_nat total mod 256, Z.of_nat n mod 256).
Proof.
  intros Hp. rewrite fixup_frag_mk_frag by done.
  unfold ClientProxy.get_fragment_info, IsEdns0. cbn [Extra].
  rewrite OPTFacts.last_OPT_cons_no_OPT by done. cbn [fixup_OPT Option edns0_rr_copy].
  rewrite first_option_fixup. simpl.
  by rewrite !int_of_byte_of_nat.
Qed.

(** When the reply has no OPT record besides the one [frag] has cut out,
    no piece holds one. *)
Lemma pieces_no_OPT (ps : list piece) i p :
  Forall (λ r, is_OPT r = false) (concat (p_extra <$> ps)) →
  ps !! i = Some p →
  Forall (λ r, is_OPT r = false) (p_extra p).
Proof.
  intros Hall Hp. rewrite Forall_concat, Forall_fmap, Forall_lookup in Hall.
  by apply (Hall i).
Qed.

(** When the OPT record of the reply has no descriptor of its own, the
    fix-up leaves its options alone and sets the appended one. *)
Lemma fixup_OPT_copy total n e :
  no_descriptor e →
  fixup_OPT total n (edns0_rr_copy e) = with_option (descriptor total n) e.
Proof.
  intros He. unfold fixup_OPT, edns0_rr_copy, with_option; simpl.
  by rewrite fmap_app, fixup_option_untouched.
Qed.

Section WithLen.
Variable Len : Msg → Z.

Lemma frag_Frags reply fs :
  build Len reply = Some (Frags fs) → frag Len reply = fixup fs.
Proof. unfold frag. by intros ->. Qed.

Lemma build_Frags reply fs :
  build Len reply = Some (Frags fs) →
  ∃ e extra ps,
    extract_OPT (Extra reply) = Some (e, extra) ∧
    fs = mk_frag reply e <$> ps ∧ ps ≠ [] ∧
    Forall (λ p, ¬ empty_piece p ∧ Len (mk_frag reply e p) ≤ 512) ps ∧
    Answer reply = concat (p_answer <$> ps) ∧
    Ns reply = concat (p_ns <$> ps) ∧
    extra = concat (p_extra <$> ps).
Proof.
  unfold build. destruct (extract_OPT (Extra reply)) as [[e extra]|]; [|done].
  intros H. apply FragFacts.frag_loop_Frags in H as (ps & -> & H).
  exists e, extra, ps. split; [done|]. simpl in H. by split.
Qed.

(** The descriptors of the fragments of a reply with one OPT record,
    whatever their number. *)
Lemma frag_descriptors reply e extra fs :
  extract_OPT (Extra reply) = Some (e, extra) →
  Forall (λ r, is_OPT r = false) extra →
  build Len reply = Some (Frags fs) →
  descriptors (frag Len reply) =
  (λ i : nat, Some (Z.of_nat (length fs) mod 256, Z.of_nat i mod 256))
    <$> seq 0 (length fs).
Proof.
  intros He Hone H. rewrite (frag_Frags _ _ H).
  apply build_Frags in H as (e' & extra' & ps & He' & -> & _ & _ & _ & _ & Hx).
  rewrite He in He'. injection He' as <- <-. rewrite Hx in Hone.
  unfold descriptors, fixup. apply list_eq. intros i.
  rewrite !list_lookup_fmap, list_lookup_imap, list_lookup_fmap.
  rewrite length_fmap.
  destruct (ps !! i) as [p|] eqn:E; simpl.
  - rewrite get_fragment_info_fixup by by eapply pieces_no_OPT.
    apply lookup_lt_Some in E. by rewrite lookup_seq_lt.
  - apply lookup_ge_None in E. by rewrite lookup_seq_ge.
Qed.

End WithLen.
End FixupFacts.

(** ** The numbering of the fragments *)

Module Numbering.
Import ServerProxy Spec Examples.

(** C5, amended: when [frag] splits a reply with one OPT record into [k]
    fragments and [k] is at most 255, it returns [k] messages, and the
    descriptors read off them are [(k, 0), (k, 1), ..., (k, k-1)]:
    fragment [i] carries the sequence number [i], and every fragment the
    total [k]. *)
Theorem frag_numbering (Len : Msg → Z) (reply : Msg) (e : OPT)
    (extra : list RR) (fs : list Msg) :
  extract_OPT (Extra reply) = Some (e, extra) →
  Forall (λ r, is_OPT r = false) extra →
  build Len reply = Some (Frags fs) →
  (length fs ≤ 255)%nat →
  length (frag Len reply) = length fs ∧
  descriptors (frag Len reply) =
    (λ i, Some (Z.of_nat (length fs), i)) <$> seqZ 0 (Z.of_nat (length fs)).
Proof.
  intros He Hone Hb Hk. split.
  - rewrite (FixupFacts.frag_Frags _ _ _ Hb). unfold fixup. apply length_imap.
  - rewrite (FixupFacts.frag_descriptors _ _ _ _ _ He Hone Hb).
    unfold seqZ. rewrite Nat2Z.id, <- list_fmap_compose.
    apply list_eq. intros i. rewrite !list_lookup_fmap.
    destruct (seq 0 (length fs) !! i) as [j|] eqn:E; [|done]. simpl.
    apply lookup_seq in E as [-> Hi].
    rewrite !Z.mod_small by lia. do 3 f_equal. lia.
Qed.

Lemma frag_numbering_witness :
  length (frag wire_len medium_reply) = 3%nat ∧
  descriptors (frag wire_len medium_reply) = [Some (3, 0); Some (3, 1); Some (3, 2)].
Proof.
  apply (frag_numbering wire_len medium_reply backend_opt [txt 30] medium_frags).
  - reflexivity.
  - repeat constructor.
  - vm_compute. reflexivity.
  - vm_compute. lia.
Defined.

(** C5 as it is written fails on a reply that needs 256 fragments: the
    total is cut to eight bits and every fragment carries 0. *)
Lemma frag_numbering_overflow :
  build wire_len big_reply = Some (Frags big_frags) ∧
  length big_frags = 256%nat ∧
  descriptors (frag wire_len big_reply) !! 0%nat = Some (Some (0, 0)) ∧
  descriptors (frag wire_len big_reply) ≠
    (λ i, Some (Z.of_nat (length big_frags), i))
      <$> seqZ 0 (Z.of_nat (length big_frags)).
Proof.
  assert (descriptors (frag wire_len big_reply) !! 0%nat = Some (Some (0, 0))) as H0
    by (vm_compute; reflexivity).
  split; [vm_compute; reflexivity|].
  split; [vm_compute; reflexivity|].
  split; [exact H0|].
  intros H. rewrite H in H0. vm_compute in H0. discriminate.
Qed.

(** The amended C5 needs the reply to have one OPT record only.  A second
    one comes to stand in a fragment after the copy of the first; the
    fix-up then looks at it and leaves the placeholder of the copy as it
    is, and the client proxy reads no descriptor off that fragment. *)
Lemma frag_numbering_second_OPT :
  extract_OPT (Extra two_OPT_reply)
  = Some (backend_opt, [txt 30; RR_OPT second_opt]) ∧
  length (frag wire_len two_OPT_reply) = 2%nat ∧
  descriptors (frag wire_len two_OPT_reply) = [Some (2, 0); Some (-1, -1)] ∧
  (Extra <$> frag wire_len two_OPT_reply) !! 1%nat
  = Some [RR_OPT (with_option local_opt backend_opt); txt 30; RR_OPT second_opt].
Proof. repeat split; vm_compute; reflexivity. Qed.

(** C6, amended: [frag] has no limit on the number of fragments.  When
    the loop ends with more than 255 fragments it returns them all; each
    has the header of the reply, so no truncation flag is set, and holds
    a record besides the OPT record; for a reply with one OPT record the
    two octets of the descriptor of a fragment are the total and its index
    cut to their low eight bits. *)
Theorem frag_beyond_255 (Len : Msg → Z) (reply : Msg) (e : OPT)
    (extra : list RR) (fs : list Msg) :
  extract_OPT (Extra reply) = Some (e, extra) →
  Forall (λ r, is_OPT r = false) extra →
  build Len reply = Some (Frags fs) →
  (255 < length fs)%nat →
  frag Len reply = fixup fs ∧
  length (frag Len reply) = length fs ∧
  Forall (λ f, Header f = Header reply ∧
               (Answer f ≠ [] ∨ Ns f ≠ [] ∨ length (Extra f) ≠ 1%nat))
         (frag Len reply) ∧
  descriptors (frag Len reply) =
    (λ i : nat, Some (Z.of_nat (length fs) mod 256, Z.of_nat i mod 256))
      <$> seq 0 (length fs).
Proof.
  intros He Hone Hb _. pose proof (FixupFacts.frag_Frags _ _ _ Hb) as Hf.
  split; [done|]. split; [rewrite Hf; apply length_imap|].
  split; [|by eapply FixupFacts.frag_descriptors].
  rewrite Hf.
  apply FixupFacts.build_Frags in Hb
    as (e' & extra' & ps & He' & -> & _ & Hps & _ & _ & Hx).
  rewrite He in He'. injection He' as <- <-. rewrite Hx in Hone.
  unfold fixup. apply Forall_lookup. intros i f.
  rewrite list_lookup_imap, list_lookup_fmap.
  destruct (ps !! i) as [p|] eqn:E; [|done]. simpl. intros [= <-].
  split; [done|].
  rewrite FixupFacts.fixup_frag_mk_frag by by eapply FixupFacts.pieces_no_OPT.
  simpl. rewrite Forall_lookup in Hps. destruct (Hps _ _ E) as [Hp _].
  unfold empty_piece in Hp.
  destruct p as [[|] [|] [|]]; simpl in *; auto.
  destruct Hp. by repeat split.
Qed.

Lemma frag_beyond_255_witness :
  frag wire_len big_reply = fixup big_frags ∧
  length (frag wire_len big_reply) = length big_frags ∧
  Forall (λ f, Header f = Header big_reply ∧
               (Answer f ≠ [] ∨ Ns f ≠ [] ∨ length (Extra f) ≠ 1%nat))
         (frag wire_len big_reply) ∧
  descriptors (frag wire_len big_reply) =
    (λ i : nat, Some (Z.of_nat (length big_frags) mod 256, Z.of_nat i mod 256))
      <$> seq 0 (length big_frags).
Proof.
  apply (frag_beyond_255 wire_len big_reply backend_opt [] big_frags).
  - reflexivity.
  - constructor.
  - vm_compute. reflexivity.
  - vm_compute. lia.
Defined.

(** C6 as it is written fails on the reply that needs 256 fragments:
    [frag] returns 256 messages, none of them the truncated reply, and
    their descriptors carry the total 0. *)
Lemma frag_no_limit :
  length (frag wire_len big_reply) = 256%nat ∧
  Forall (λ f, Truncated (Header f) = false ∧ length (Answer f) = 1%nat)
         (frag wire_len big_reply) ∧
  descriptors (frag wire_len big_reply) !! 1%nat = Some (Some (0, 1)).
Proof.
  split; [vm_compute; reflexivity|]. split; [|vm_compute; reflexivity].
  apply Forall_fold_right. vm_compute. tauto.
Qed.

End Numbering.

(** ** The iteration without progress *)

Module Overflow.
Import ServerProxy Spec Examples.

Section WithLen.
Variable Len : Msg → Z.

Lemma fill_nil add f : fill Len add f [] = (f, []).
Proof. reflexivity. Qed.

Lemma fill_head_too_large add f r rest :
  512 < Len (add f r) → fill Len add f (r :: rest) = (f, r :: rest).
Proof.
  intros H. simpl. destruct (Z.leb_spec (Len (add f r)) 512); [lia|done].
Qed.

(** An iteration that adds no record leaves the queues as they were,
    and no head of a queue fitted. *)
Lemma fill_frag_stuck reply e q f q' :
  fill_frag Len reply e q = (f, q') →
  no_RR_added f = true →
  f = new_frag reply e ∧ q' = q ∧ stuck Len reply e q.
Proof.
  unfold fill_frag.
  destruct (fill Len add_Answer _ _) as [f1 ra] eqn:E1.
  destruct (fill Len add_Ns f1 _) as [f2 rn] eqn:E2.
  destruct (fill Len add_Extra f2 _) as [f3 re] eqn:E3.
  intros [= <- <-] Hadd.
  apply FragFacts.fill_spec in E1 as (ta & Ha & -> & _ & H1).
  apply FragFacts.fill_spec in E2 as (tn & Hn & -> & _ & H2).
  apply FragFacts.fill_spec in E3 as (te & He & -> & _ & H3).
  rewrite FragFacts.foldl_add_Answer, FragFacts.foldl_add_Ns,
    FragFacts.foldl_add_Extra in *.
  assert (ta = [] ∧ tn = [] ∧ te = []) as (-> & -> & ->).
  { revert Hadd. unfold no_RR_added; simpl.
    rewrite !andb_true_iff, !bool_decide_eq_true.
    destruct ta, tn, te; simpl; intuition (congruence || lia). }
  simpl in *. destruct q as [qa qn qe]; simpl in *. subst.
  split; [done|]. split; [done|].
  unfold stuck; simpl. repeat split; intros r l ->; assumption.
Qed.

(** When the loop ends with the single message, it has come to an
    iteration where no head of a queue fits, and that iteration is the
    first one or starts with a record still queued. *)
Lemma frag_loop_Single_stuck fuel reply e q acc m :
  frag_loop Len fuel reply e q acc = Some (Single m) →
  ∃ q', stuck Len reply e q' ∧
    remaining_answer q' `suffix_of` remaining_answer q ∧
    remaining_ns q' `suffix_of` remaining_ns q ∧
    remaining_extra q' `suffix_of` remaining_extra q ∧
    (q' = q ∨ queues_empty q' = false).
Proof.
  revert q acc. induction fuel as [|fuel IH]; intros q acc; [done|].
  simpl. destruct (fill_frag Len reply e q) as [f q1] eqn:E.
  destruct (no_RR_added f) eqn:Hadd.
  - intros _. apply fill_frag_stuck in E as (_ & _ & Hs); [|done].
    exists q. repeat split; auto; try apply Hs.
  - destruct (queues_empty q1) eqn:Hq1; [done|]. intros H.
    apply IH in H as (q' & Hs & Sa & Sn & Se & Hq').
    apply FragFacts.fill_frag_spec in E as (p & _ & Ha & Hn & He & _).
    exists q'. split; [done|]. rewrite Ha, Hn, He.
    repeat split; try by apply suffix_app_r.
    right. by destruct Hq' as [->|].
Qed.

(** The record tried first does not fit alone: the iteration adds no
    record, or it goes on with the same record tried first. *)
Lemma fill_frag_next_RR reply e q add r f q' :
  next_RR q = Some (add, r) →
  512 < Len (add (new_frag reply e) r) →
  fill_frag Len reply e q = (f, q') →
  no_RR_added f = true ∨
  (queues_empty q' = false ∧ next_RR q' = Some (add, r)).
Proof.
  destruct q as [qa qn qe]. unfold next_RR, fill_frag.
  cbn [remaining_answer remaining_ns remaining_extra].
  destruct qa as [|a qa]; [destruct qn as [|n qn]; [destruct qe as [|x qe]|]|].
  - done.
  - intros [= <- <-] Hr. rewrite !fill_nil, fill_head_too_large by done.
    intros [= <- <-]. by left.
  - intros [= <- <-] Hr. rewrite fill_nil, fill_head_too_large by done.
    destruct (fill Len add_Extra _ qe) as [f3 re]. intros [= <- <-].
    right. by split.
  - intros [= <- <-] Hr. rewrite fill_head_too_large by done.
    destruct (fill Len add_Ns _ qn) as [f2 rn].
    destruct (fill Len add_Extra _ qe) as [f3 re]. intros [= <- <-].
    right. by split.
Qed.

Lemma frag_loop_stuck fuel reply e q acc add r :
  (queued q < fuel)%nat →
  next_RR q = Some (add, r) →
  512 < Len (add (new_frag reply e) r) →
  frag_loop Len fuel reply e q acc
  = Some (Single (truncated_frag (new_frag reply e))).
Proof.
  revert q acc. induction fuel as [|fuel IH]; intros q acc Hq Hn Hr; [lia|].
  simpl. destruct (fill_frag Len reply e q) as [f q'] eqn:E.
  destruct (fill_frag_next_RR _ _ _ _ _ _ _ Hn Hr E) as [Hadd|[Hq' Hn']].
  - rewrite Hadd. by apply fill_frag_stuck in E as (-> & _).
  - destruct (no_RR_added f) eqn:Hadd.
    + by apply fill_frag_stuck in E as (-> & _).
    + rewrite Hq'. apply IH; [|done|done].
      pose proof (FragFacts.fill_frag_progress _ _ _ _ _ _ E Hadd). lia.
Qed.

(** The loop of [frag reply] passes through every state of
    [at_iteration]. *)
Lemma at_iteration_loop reply e extra q :
  at_iteration Len reply e extra q →
  ∃ fuel acc, (queued q < fuel)%nat ∧
    frag_loop Len (S (queued (mkQueues (Answer reply) (Ns reply) extra)))
      reply e (mkQueues (Answer reply) (Ns reply) extra) []
    = frag_loop Len fuel reply e q acc.
Proof.
  induction 1 as [|q f q' _ (fuel & acc & Hfuel & IH) E Hadd Hq'].
  - eexists _, []. split; [|done]. lia.
  - destruct fuel as [|fuel]; [lia|].
    exists fuel, (acc ++ [f]). split.
    + pose proof (FragFacts.fill_frag_progress _ _ _ _ _ _ E Hadd). lia.
    + rewrite IH. simpl. by rewrite E, Hadd, Hq'.
Qed.

(** C4: when, at the start of some iteration of the fragment loop, the
    record tried first does not fit into 512 octets together with the
    header and the copy of the OPT record, [frag] returns one message:
    the reply's header and questions with the truncation flag set, empty
    answer, authority and additional sections, and so no descriptor. *)
Theorem frag_single_RR_overflow reply e extra q add r :
  extract_OPT (Extra reply) = Some (e, extra) →
  at_iteration Len reply e extra q →
  next_RR q = Some (add, r) →
  512 < Len (add (new_frag reply e) r) →
  ∃ m, frag Len reply = [m] ∧
    m = set_Truncated
          (mkMsg (Header reply) (Compress reply) (Questions reply) [] [] []) true ∧
    Truncated (Header m) = true ∧
    Answer m = [] ∧ Ns m = [] ∧ Extra m = [] ∧
    IsEdns0 m = None ∧
    ClientProxy.get_fragment_info m = Some (-1, -1).
Proof.
  intros He Hat Hn Hr.
  destruct (at_iteration_loop _ _ _ _ Hat) as (fuel & acc & Hfuel & Hloop).
  eexists. split.
  - unfold frag, build. rewrite He, Hloop.
    by rewrite (frag_loop_stuck _ _ _ _ _ _ _ Hfuel Hn Hr).
  - by repeat split.
Qed.

End WithLen.

(** The reply whose second answer has 700 octets of data: the first
    iteration takes the first answer and the authority record, the second
    starts with the large answer. *)
Lemma frag_single_RR_overflow_witness :
  ∃ m, frag wire_len oversize_reply = [m] ∧
    m = set_Truncated
          (mkMsg (Header oversize_reply) (Compress oversize_reply)
             (Questions oversize_reply) [] [] []) true ∧
    Truncated (Header m) = true ∧
    Answer m = [] ∧ Ns m = [] ∧ Extra m = [] ∧
    IsEdns0 m = None ∧
    ClientProxy.get_fragment_info m = Some (-1, -1).
Proof.
  apply (frag_single_RR_overflow wire_len oversize_reply backend_opt []
           (mkQueues [txt 700] [] []) add_Answer (txt 700)).
  - reflexivity.
  - eapply at_next; [apply at_first| | |]; vm_compute; reflexivity.
  - reflexivity.
  - vm_compute. reflexivity.
Defined.

End Overflow.

(** ** The size of the messages [frag] returns *)

Module Sizes.
Import ServerProxy Spec Examples.

(** The length without compression counts the data of an option by the
    number of its octets. *)
Lemma option_len_sum (g : EDNS0 → EDNS0) opts :
  Forall (λ e, Code (g e) = Code e ∧ length (Data (g e)) = length (Data e)) opts →
  foldr (λ e n, option_len e + n) 0 (g <$> opts)
  = foldr (λ e n, option_len e + n) 0 opts.
Proof.
  induction 1 as [|o opts [_ Ho] _ IH]; simpl; [done|].
  f_equal; [|exact IH]. unfold option_len. by rewrite Ho.
Qed.

Lemma section_len_app l l' :
  section_len (l ++ l') = section_len l + section_len l'.
Proof.
  unfold section_len. induction l as [|r l IH]; simpl; [done|].
  rewrite IH. lia.
Qed.

Lemma section_len_map_options (g : EDNS0 → EDNS0) ex o :
  last_OPT ex = Some o →
  Forall (λ e, Code (g e) = Code e ∧ length (Data (g e)) = length (Data e))
         (Option o) →
  section_len (map_last_OPT (λ o, mkOPT (Hdr o) (g <$> Option o)) ex)
  = section_len ex.
Proof.
  intros (pre & post & -> & Hpost)%OPTFacts.last_OPT_Some Hg.
  rewrite OPTFacts.map_last_OPT_middle by done.
  rewrite !section_len_app. f_equal.
  unfold section_len. simpl. do 2 f_equal. by apply option_len_sum.
Qed.

Lemma wire_len_counts_option_data : Len_counts_option_data wire_len.
Proof.
  intros g [h c qs an ns ex] o Ho Hg. unfold map_options, wire_len; simpl.
  f_equal. by apply section_len_map_options with o.
Qed.

Section WithLen.
Variable Len : Msg → Z.
Hypothesis Len_option_data : Len_counts_option_data Len.

(** The fix-up keeps the code of every option, and the number of octets
    of an option whose data has two. *)
Lemma fixup_option_two_octets total n (o : OPT) :
  descriptors_two_octets o →
  Forall (λ e, Code (fixup_option total n e) = Code e ∧
               length (Data (fixup_option total n e)) = length (Data e))
         (Option o).
Proof.
  intros Ho. eapply Forall_impl; [exact Ho|]. intros e He. simpl in He.
  destruct (decide (Code e = FRAG_CODE)) as [E|E].
  - rewrite FixupFacts.fixup_option_descriptor by done.
    unfold descriptor; simpl. by rewrite E, He.
  - by rewrite FixupFacts.fixup_option_other.
Qed.

Lemma edns0_rr_copy_two_octets e :
  descriptors_two_octets e → descriptors_two_octets (edns0_rr_copy e).
Proof.
  intros He. unfold descriptors_two_octets, edns0_rr_copy; simpl.
  apply Forall_app. split; [done|]. by repeat constructor.
Qed.

(** The fix-up does not change the length of a fragment whose
    descriptors, in whatever OPT record, all have two octets of data. *)
Lemma fixup_frag_Len total n reply e p :
  descriptors_two_octets e →
  all_descriptors_two_octets (p_extra p) →
  Len (fixup_frag total n (mk_frag reply e p)) = Len (mk_frag reply e p).
Proof.
  intros He Hp.
  destruct (IsEdns0 (mk_frag reply e p)) as [o|] eqn:Ho.
  - apply (Len_option_data (fixup_option total n) (mk_frag reply e p) o);
      [done|].
    apply fixup_option_two_octets.
    apply OPTFacts.last_OPT_elem in Ho. cbn [mk_frag Extra] in Ho.
    apply elem_of_cons in Ho as [[= ->]|Ho]; [by apply edns0_rr_copy_two_octets|].
    unfold all_descriptors_two_octets in Hp. rewrite Forall_forall in Hp.
    apply (Hp _ Ho).
  - apply OPTFacts.last_OPT_None in Ho. cbn [mk_frag Extra] in Ho.
    by apply Forall_cons in Ho as [? _].
Qed.

(** C2, amended: for a reply with an OPT record, every record of which
    fits into 512 octets together with the header and the copy of the OPT
    record, every message [frag] returns has at most 512 octets; and the
    fix-up, which writes [k, i] over the placeholder, leaves the length of
    every fragment as the filling loops have checked it.  This holds when
    no OPT record of the reply has an option with the code of the
    descriptor and other than two octets of data, and when a reply with no
    record but the OPT record has a header and question section of at
    most 512 octets.  [Msg.Len] counts the data of an option by the
    number of its octets. *)
Theorem frag_size_bound reply e extra :
  extract_OPT (Extra reply) = Some (e, extra) →
  all_descriptors_two_octets (Extra reply) →
  Forall (λ r, Len (add_Answer (new_frag reply e) r) ≤ 512) (Answer reply) →
  Forall (λ r, Len (add_Ns (new_frag reply e) r) ≤ 512) (Ns reply) →
  Forall (λ r, Len (add_Extra (new_frag reply e) r) ≤ 512) extra →
  (Answer reply = [] → Ns reply = [] → extra = [] →
   Len (truncated_frag (new_frag reply e)) ≤ 512) →
  Forall (λ f, Len f ≤ 512) (frag Len reply) ∧
  ∀ fs, build Len reply = Some (Frags fs) →
        Forall2 (λ f f', Len f' = Len f) fs (frag Len reply).
Proof.
  intros He H2 Ha Hn Hx Hempty.
  assert (descriptors_two_octets e ∧ all_descriptors_two_octets extra)
    as [H2e H2x].
  { unfold all_descriptors_two_octets in H2.
    rewrite (FragFacts.extract_OPT_Permutation _ _ _ He) in H2.
    by apply Forall_cons in H2. }
  assert (∀ fs, build Len reply = Some (Frags fs) →
                Forall (λ f, Len f ≤ 512) fs ∧
                Forall2 (λ f f', Len f' = Len f) fs (frag Len reply)) as HF.
  { intros fs Hb. rewrite (FixupFacts.frag_Frags _ _ _ Hb).
    apply FixupFacts.build_Frags in Hb
      as (e' & extra' & ps & He' & -> & _ & Hps & _ & _ & Hpx).
    rewrite He in He'. injection He' as <- <-. split.
    - apply Forall_fmap. eapply Forall_impl; [exact Hps|]. by intros p [_ Hp].
    - unfold fixup. apply Forall2_same_length_lookup. split.
      + by rewrite length_imap.
      + intros i f f' Hf. rewrite list_lookup_imap, Hf. simpl. intros [= <-].
        apply list_lookup_fmap_Some in Hf as (p & -> & Hp).
        apply fixup_frag_Len; [done|].
        unfold all_descriptors_two_octets in *.
        rewrite Hpx, Forall_concat, Forall_fmap, Forall_lookup in H2x.
        by apply (H2x i). }
  split; [|intros fs Hb; by apply HF].
  unfold frag. destruct (build Len reply) as [[m|fs]|] eqn:Hb; [| |done].
  - repeat constructor. revert Hb. unfold build. rewrite He. intros Hb.
    pose proof (FragFacts.frag_loop_Single _ _ _ _ _ _ _ Hb) as ->.
    apply Overflow.frag_loop_Single_stuck in Hb
      as (q & (Sa & Sn & Sx) & Ua & Un & Ux & Hq). simpl in *.
    assert (remaining_answer q = []) as Ea.
    { destruct (remaining_answer q) as [|r l] eqn:E; [done|].
      specialize (Sa r l eq_refl). destruct Ua as [k Ua].
      rewrite Ua, Forall_app, Forall_cons in Ha. lia. }
    assert (remaining_ns q = []) as En.
    { destruct (remaining_ns q) as [|r l] eqn:E; [done|].
      specialize (Sn r l eq_refl). destruct Un as [k Un].
      rewrite Un, Forall_app, Forall_cons in Hn. lia. }
    assert (remaining_extra q = []) as Ex.
    { destruct (remaining_extra q) as [|r l] eqn:E; [done|].
      specialize (Sx r l eq_refl). destruct Ux as [k Ux].
      rewrite Ux, Forall_app, Forall_cons in Hx. lia. }
    destruct Hq as [->|Hq].
    + simpl in *. by apply Hempty.
    + assert (queues_empty q = true) by by apply FragFacts.queues_empty_true.
      congruence.
  - rewrite <- (FixupFacts.frag_Frags _ _ _ Hb).
    destruct (HF _ eq_refl) as [H1 H3].
    apply Forall_lookup. intros i f' Hf'.
    destruct (Forall2_lookup_r _ _ _ _ _ H3 Hf') as (f & Hf & ->).
    rewrite Forall_lookup in H1. by eapply H1.
Qed.

End WithLen.

Lemma frag_size_bound_witness :
  Forall (λ f, wire_len f ≤ 512) (frag wire_len medium_reply) ∧
  ∀ fs, build wire_len medium_reply = Some (Frags fs) →
        Forall2 (λ f f', wire_len f' = wire_len f) fs (frag wire_len medium_reply).
Proof.
  apply (frag_size_bound wire_len wire_len_counts_option_data
           medium_reply backend_opt [txt 30]).
  - reflexivity.
  - repeat constructor.
  - vm_compute. repeat constructor; discriminate.
  - vm_compute. repeat constructor; discriminate.
  - vm_compute. repeat constructor; discriminate.
  - discriminate.
Defined.

(** C2 as it is written fails on a reply whose OPT record holds an option
    with the code of the descriptor and no data.  Its one answer fits
    with the header and the copy of the OPT record, the fragment has 512
    octets when the filling loop checks it, and the fix-up, which writes
    two octets into every option with that code, returns it with 514. *)
Lemma frag_size_grows :
  extract_OPT (Extra tight_reply) = Some (stale_opt, []) ∧
  Forall (λ r, wire_len (add_Answer (new_frag tight_reply stale_opt) r) ≤ 512)
         (Answer tight_reply) ∧
  Ns tight_reply = [] ∧
  build wire_len tight_reply = Some (Frags tight_frags) ∧
  wire_len <$> tight_frags = [512] ∧
  wire_len <$> frag wire_len tight_reply = [514] ∧
  ¬ Forall (λ f, wire_len f ≤ 512) (frag wire_len tight_reply).
Proof.
  assert (wire_len <$> frag wire_len tight_reply = [514]) as Hf
    by (vm_compute; reflexivity).
  split; [reflexivity|].
  split; [apply Forall_fold_right; vm_compute; split; [discriminate|exact I]|].
  split; [reflexivity|]. split; [vm_compute; reflexivity|].
  split; [vm_compute; reflexivity|]. split; [exact Hf|].
  intros H.
  assert (Forall (λ n, n ≤ 512) (wire_len <$> frag wire_len tight_reply)) as H'
    by (apply Forall_fmap; exact H).
  rewrite Hf in H'. apply Forall_cons in H' as [H' _]. lia.
Qed.

End Sizes.

(** ** A reply without OPT record *)

Module NoOPT.
Import ServerProxy Spec Examples.

Lemma remove_first_code_Some code opts :
  (∃ e, e ∈ opts ∧ Code e = code) → is_Some (remove_first_code code opts).
Proof.
  intros (e & He & Hc). induction He as [e opts|e e' opts He IH]; simpl.
  - rewrite decide_True by done. by eexists.
  - destruct (decide (Code e' = code)); [by eexists|].
    destruct (IH Hc) as [rest ->]. by eexists.
Qed.

(** The scan of the query finds the capability marker when the OPT
    record of the query carries it. *)
Lemma consume_capability_marked request opt :
  IsEdns0 request = Some opt →
  (∃ e, e ∈ Option opt ∧ Code e = CAP_CODE) →
  (consume_capability request).1 = true.
Proof.
  intros Ho He. unfold consume_capability. rewrite Ho.
  destruct (remove_first_code_Some _ _ He) as [rest Hrest].
  unfold CAP_CODE in Hrest. by rewrite Hrest.
Qed.

(** C3, amended: for a backend reply without OPT record, when the query
    carried the capability marker, [frag] declines: it returns no
    message, and the server proxy writes nothing to the client. *)
Theorem server_silent_without_OPT (Len : Msg → Z) (exchange : Msg → option Msg)
    (request : Msg) (opt : OPT) (response : Msg) :
  IsEdns0 request = Some opt →
  (∃ e, e ∈ Option opt ∧ Code e = CAP_CODE) →
  exchange (consume_capability request).2 = Some response →
  IsEdns0 response = None →
  frag Len response = [] ∧ ServeDNS Len exchange request = [].
Proof.
  intros Ho He Hx Hr.
  assert (frag Len response = []) as Hf.
  { unfold frag. by rewrite (proj2 (FragFacts.build_None Len response) Hr). }
  split; [done|]. unfold ServeDNS.
  pose proof (consume_capability_marked _ _ Ho He) as Hc.
  destruct (consume_capability request) as [b request']. simpl in *. subst b.
  by rewrite Hx.
Qed.

Lemma server_silent_without_OPT_witness :
  frag wire_len reply_without_opt = [] ∧
  ServeDNS wire_len (λ _, Some reply_without_opt) (marked_query 7) = [].
Proof.
  apply (server_silent_without_OPT wire_len (λ _, Some reply_without_opt)
           (marked_query 7)
           (mkOPT (mkRR_Header "." TypeOPT 512 0 0) [mkEDNS0 CAP_CODE []])
           reply_without_opt).
  - reflexivity.
  - exists (mkEDNS0 CAP_CODE []). split; [apply list_elem_of_here|reflexivity].
  - reflexivity.
  - reflexivity.
Defined.

(** C3 as it is written fails: the reply without OPT record is not
    forwarded; nothing is. *)
Lemma server_does_not_forward :
  IsEdns0 reply_without_opt = None ∧
  (consume_capability (marked_query 7)).1 = true ∧
  ServeDNS wire_len (λ _, Some reply_without_opt) (marked_query 7)
  ≠ [reply_without_opt].
Proof. repeat split; [vm_compute; discriminate]. Qed.

End NoOPT.

(** ** The descriptor of a message *)

Module Descriptor.
Import ClientProxy Spec Examples.

Lemma first_option_None code opts :
  first_option code opts = None ↔ Forall (λ e, Code e ≠ code) opts.
Proof.
  induction opts as [|o opts IH]; simpl.
  - split; [constructor|done].
  - rewrite Forall_cons. destruct (decide (Code o = code)); [|tauto].
    split; [done|tauto].
Qed.

Lemma first_option_Some code opts e :
  first_option code opts = Some e → e ∈ opts ∧ Code e = code.
Proof.
  induction opts as [|o opts IH]; simpl; [done|].
  destruct (decide (Code o = code)) as [E|E].
  - intros [= <-]. split; [apply list_elem_of_here|done].
  - intros H. destruct (IH H). split; [by apply list_elem_of_further|done].
Qed.

(** The descriptor found is made of two octets. *)
Lemma get_fragment_info_range msg n s :
  get_fragment_info msg = Some (n, s) →
  (n, s) = (-1, -1) ∨ (0 ≤ n ≤ 255 ∧ 0 ≤ s ≤ 255).
Proof.
  unfold get_fragment_info.
  destruct (IsEdns0 msg) as [o|]; [|intros [= <- <-]; by left].
  destruct (first_option FRAG_CODE (Option o)) as [e|]; [|intros [= <- <-]; by left].
  destruct (Data e) as [|d0 [|d1 ds]]; simpl; [done|done|].
  intros [= <- <-]. right. split; apply int_of_byte_range.
Qed.

(** Without two octets of data in the first descriptor the function
    panics. *)
Lemma get_fragment_info_panics msg o e :
  IsEdns0 msg = Some o →
  first_option FRAG_CODE (Option o) = Some e →
  (length (Data e) < 2)%nat →
  get_fragment_info msg = None.
Proof.
  intros Ho He Hlen. unfold get_fragment_info. rewrite Ho, He.
  destruct (Data e) as [|d0 [|d1 ds]]; simpl in *; [done|done|lia].
Qed.

(** C9: for a message whose OPT record has no descriptor, or whose first
    descriptor has two octets of data at least, [get_fragment_info]
    returns without a panic, and it returns [(-1, -1)] exactly when the
    message has no OPT record or its OPT record has no descriptor. *)
Theorem get_fragment_info_total (msg : Msg) :
  (∀ o e, IsEdns0 msg = Some o →
          first_option FRAG_CODE (Option o) = Some e →
          (2 ≤ length (Data e))%nat) →
  ∃ n s, get_fragment_info msg = Some (n, s) ∧
    ((n, s) = (-1, -1) ↔
     IsEdns0 msg = None ∨
     ∃ o, IsEdns0 msg = Some o ∧ Forall (λ e, Code e ≠ FRAG_CODE) (Option o)).
Proof.
  intros Hpre. unfold get_fragment_info.
  destruct (IsEdns0 msg) as [o|] eqn:Ho.
  - destruct (first_option FRAG_CODE (Option o)) as [e|] eqn:He.
    + specialize (Hpre o e eq_refl He).
      destruct (Data e) as [|d0 [|d1 ds]]; simpl in *; [lia|lia|].
      eexists _, _. split; [done|]. split.
      * intros [= H _]. pose proof (int_of_byte_range d0). lia.
      * intros [|(o' & [= <-] & Hno)]; [done|].
        apply first_option_None in Hno. congruence.
    + exists (-1), (-1). split; [done|]. split; [|done].
      intros _. right. exists o. split; [done|]. by apply first_option_None.
  - exists (-1), (-1). split; [done|]. split; [|done]. by left.
Qed.

Lemma get_fragment_info_total_witness :
  ∃ n s, get_fragment_info (fragment x03 x01) = Some (n, s) ∧
    ((n, s) = (-1, -1) ↔
     IsEdns0 (fragment x03 x01) = None ∨
     ∃ o, IsEdns0 (fragment x03 x01) = Some o ∧
          Forall (λ e, Code e ≠ FRAG_CODE) (Option o)).
Proof.
  apply (get_fragment_info_total (fragment x03 x01)).
  intros o e Ho He. vm_compute in Ho. injection Ho as <-.
  vm_compute in He. injection He as <-. simpl. lia.
Defined.

End Descriptor.

(** ** The wait for the fragments *)

Module Collection.
Import ClientProxy Spec Examples.

Lemma wait_for_response_shorter request conn response conn' :
  wait_for_response request conn = (Some response, conn') →
  (length conn' < length conn)%nat ∧ response ∈ conn ∧
  Id (Header response) = Id (Header request).
Proof.
  induction conn as [|m conn IH]; simpl; [done|].
  destruct (decide (Id (Header m) = Id (Header request))) as [E|E].
  - intros [= <- <-]. split; [lia|]. split; [apply list_elem_of_here|done].
  - intros H. destruct (IH H) as (? & ? & ?).
    split; [lia|]. split; [by apply list_elem_of_further|done].
Qed.

(** The loop comes to an end with the fuel [receive] gives it. *)
Lemma collect_total fuel request num_frags frags conn :
  (length conn < fuel)%nat →
  is_Some (collect fuel request num_frags frags conn).
Proof.
  revert frags conn. induction fuel as [|fuel IH]; intros frags conn Hf; [lia|].
  simpl. case_bool_decide; [|by eexists].
  destruct (wait_for_response request conn) as [[response|] conn'] eqn:E;
    [|by eexists].
  apply wait_for_response_shorter in E as (Hlen & _).
  destruct (get_fragment_info response) as [[? seq]|]; [|by eexists].
  apply IH. lia.
Qed.

(** Its result does not depend on the fuel. *)
Lemma collect_fuel fuel fuel' request num_frags frags conn r r' :
  collect fuel request num_frags frags conn = Some r →
  collect fuel' request num_frags frags conn = Some r' →
  r = r'.
Proof.
  revert fuel' frags conn.
  induction fuel as [|fuel IH]; intros fuel' frags conn.
  - simpl. case_bool_decide; [done|]. intros [= <-].
    destruct fuel'; simpl; rewrite bool_decide_eq_false_2 by done; congruence.
  - destruct fuel' as [|fuel']; simpl.
    + case_bool_decide; [done|]. congruence.
    + case_bool_decide; [|congruence].
      destruct (wait_for_response request conn) as [[response|] conn'];
        [|congruence].
      destruct (get_fragment_info response) as [[? seq]|]; [|congruence].
      apply IH.
Qed.

Lemma rebuild_loop_None frags ns m :
  rebuild_loop frags ns m = None ↔ ∃ n, n ∈ ns ∧ frags !! n = None.
Proof.
  revert m. induction ns as [|n ns IH]; intros m; simpl.
  - split; [done|]. intros (n & Hn & _). by apply elem_of_nil in Hn.
  - destruct (frags !! n) as [f|] eqn:E.
    + rewrite IH. split.
      * intros (k & Hk & Hnone). exists k. split; [by apply list_elem_of_further|done].
      * intros (k & Hk & Hnone). apply elem_of_cons in Hk as [->|Hk]; [congruence|].
        by exists k.
    + split; [|done]. intros _. exists n. split; [apply list_elem_of_here|done].
Qed.

(** The rebuilding fails exactly when fragment 0 or one of the fragments
    [1 .. num_frags-1] is missing. *)
Lemma rebuild_None (frags : gmap Z Msg) num_frags :
  rebuild frags num_frags = None ↔
  frags !! 0 = None ∨ ∃ i, 1 ≤ i < num_frags ∧ frags !! i = None.
Proof.
  unfold rebuild. destruct (frags !! 0) as [f0|] eqn:E0.
  - rewrite rebuild_loop_None. split.
    + intros (n & Hn & Hnone). right. exists n. split; [|done].
      apply elem_of_seqZ in Hn. lia.
    + intros [|(i & Hi & Hnone)]; [done|]. exists i. split; [|done].
      apply elem_of_seqZ. lia.
  - split; [by left|done].
Qed.

End Collection.

(** ** What the client proxy delivers *)

Module Delivery.
Import ClientProxy Spec Examples.

(** [receive] always comes back: the loop is given enough fuel. *)
Lemma receive_total request conn : is_Some (receive request conn).
Proof.
  unfold receive.
  destruct (wait_for_response request conn) as [[response|] conn']; [|by eexists].
  destruct (get_fragment_info response) as [[num_frags seq]|]; [|by eexists].
  destruct (decide (num_frags = -1)); [by eexists|].
  destruct (Collection.collect_total (S (length conn')) request num_frags
              {[ seq := response ]} conn') as [c ->]; [lia|].
  destruct c as [frags| |]; try by eexists.
  destruct (rebuild frags num_frags); by eexists.
Qed.

Lemma ServeDNS_total Len up request : is_Some (ServeDNS Len up request).
Proof.
  destruct up as [| |conn]; simpl; try by eexists.
  destruct (receive_total request conn) as [[]->]; by eexists.
Qed.

(** C7: when the rebuilding has come to its end with the reply
    [rebuilt], the proxy writes one message.  [B] is the UDP size of the
    OPT record of the query, or 512 for a query without OPT record.  If
    [rebuilt] is longer than [B], the message is [rebuilt] with the
    truncation flag set and empty answer, authority and additional
    sections; otherwise it is [rebuilt]. *)
Theorem buffer_enforcement (Len : Msg → Z) (request : Msg) (conn : list Msg)
    (rebuilt : Msg) :
  receive request conn = Some (Rebuilt rebuilt) →
  let B := match IsEdns0 request with
           | None => 512
           | Some opt => UDPSize opt
           end in
  ∃ m, ServeDNS Len (Connected conn) request = Some (Written [m]) ∧
    (B < Len rebuilt →
     m = mkMsg (Header (set_Truncated rebuilt true)) (Compress rebuilt)
           (Questions rebuilt) [] [] [] ∧
     Truncated (Header m) = true ∧ Answer m = [] ∧ Ns m = [] ∧ Extra m = []) ∧
    (Len rebuilt ≤ B → m = rebuilt).
Proof.
  intros Hr B. simpl. rewrite Hr. eexists. split; [done|].
  unfold enforce, client_buf_size. fold B. case_bool_decide; split; try lia.
  - intros _. by repeat split.
  - done.
Qed.

Lemma buffer_enforcement_witness :
  ∃ m, ServeDNS wire_len (Connected (ServerProxy.frag wire_len medium_reply))
         (plain_query 7) = Some (Written [m]) ∧
    (512 < wire_len medium_rebuilt →
     m = mkMsg (Header (set_Truncated medium_rebuilt true)) (Compress medium_rebuilt)
           (Questions medium_rebuilt) [] [] [] ∧
     Truncated (Header m) = true ∧ Answer m = [] ∧ Ns m = [] ∧ Extra m = []) ∧
    (wire_len medium_rebuilt ≤ 512 → m = medium_rebuilt).
Proof.
  apply (buffer_enforcement wire_len (plain_query 7)
           (ServerProxy.frag wire_len medium_reply) medium_rebuilt).
  vm_compute. reflexivity.
Defined.

(** C8: when the wait for the fragments has come to its end and fragment
    0 is missing, or a fragment [i] with [1 ≤ i < total], the proxy
    writes one message and no other: the SERVFAIL reply, which has the
    id of the query, the rcode 2 and no resource record. *)
Theorem missing_fragment_SERVFAIL (Len : Msg → Z) (request : Msg)
    (conn : list Msg) (first : Msg) (conn' : list Msg) (total seq : Z)
    (fuel : nat) (frags : gmap Z Msg) :
  wait_for_response request conn = (Some first, conn') →
  get_fragment_info first = Some (total, seq) →
  total ≠ -1 →
  collect fuel request total {[ seq := first ]} conn' = Some (Collected frags) →
  (frags !! 0 = None ∨ ∃ i, 1 ≤ i < total ∧ frags !! i = None) →
  ServeDNS Len (Connected conn) request = Some (Written [SRVFAIL request]) ∧
  Id (Header (SRVFAIL request)) = Id (Header request) ∧
  Rcode (Header (SRVFAIL request)) = 2 ∧
  Answer (SRVFAIL request) = [] ∧
  Ns (SRVFAIL request) = [] ∧
  Extra (SRVFAIL request) = [].
Proof.
  intros Hw Hi Ht Hc Hmiss. split; [|by repeat split].
  simpl. unfold receive. rewrite Hw, Hi, decide_False by done.
  destruct (Collection.collect_total (S (length conn')) request total
              {[ seq := first ]} conn') as [c Hc']; [lia|].
  rewrite Hc'. rewrite <- (Collection.collect_fuel _ _ _ _ _ _ _ _ Hc Hc').
  by rewrite (proj2 (Collection.rebuild_None frags total) Hmiss).
Qed.

Lemma missing_fragment_SERVFAIL_witness :
  ServeDNS wire_len (Connected [fragment x02 x01; fragment x02 x05]) (plain_query 7)
  = Some (Written [SRVFAIL (plain_query 7)]) ∧
  Id (Header (SRVFAIL (plain_query 7))) = Id (Header (plain_query 7)) ∧
  Rcode (Header (SRVFAIL (plain_query 7))) = 2 ∧
  Answer (SRVFAIL (plain_query 7)) = [] ∧
  Ns (SRVFAIL (plain_query 7)) = [] ∧
  Extra (SRVFAIL (plain_query 7)) = [].
Proof.
  apply (missing_fragment_SERVFAIL wire_len (plain_query 7)
           [fragment x02 x01; fragment x02 x05]
           (fragment x02 x01) [fragment x02 x05] 2 1 2
           (<[5 := fragment x02 x05]> {[ 1 := fragment x02 x01 ]})).
  - reflexivity.
  - reflexivity.
  - lia.
  - vm_compute. reflexivity.
  - left. vm_compute. reflexivity.
Defined.

(** C10 fails on a first reply whose descriptor has one octet of data:
    the read of the second octet panics and the proxy writes nothing. *)
Theorem short_descriptor_panics :
  get_fragment_info short_descriptor = None ∧
  ServeDNS wire_len (Connected [short_descriptor]) (plain_query 7)
  = Some Panicked.
Proof. split; vm_compute; reflexivity. Qed.

End Delivery.

(** ** Replies with descriptors of two octets *)

Module Classification.
Import ClientProxy Spec.

Lemma wait_for_response_split request conn response conn' :
  wait_for_response request conn = (Some response, conn') →
  ∃ pre, conn = pre ++ response :: conn'.
Proof.
  induction conn as [|m conn IH]; simpl; [done|].
  destruct (decide (Id (Header m) = Id (Header request))) as [E|E].
  - intros [= <- <-]. by exists [].
  - intros H. destruct (IH H) as [pre ->]. by exists (m :: pre).
Qed.

(** Whatever the loop has stored under a number is a message it has read
    with that sequence number, or was stored before. *)
Lemma collect_sound (P : Z → Msg → Prop) request total fuel conn
    (frags frags' : gmap Z Msg) :
  collect fuel request total frags conn = Some (Collected frags') →
  (∀ i f, frags !! i = Some f → P i f) →
  (∀ f t s, f ∈ conn → get_fragment_info f = Some (t, s) → P s f) →
  ∀ i f, frags' !! i = Some f → P i f.
Proof.
  revert frags conn. induction fuel as [|fuel IH]; intros frags conn; simpl.
  - case_bool_decide as Hlt; [done|]. by intros [= <-].
  - case_bool_decide as Hlt; [|by intros [= <-]].
    destruct (wait_for_response request conn) as [[response|] conn'] eqn:E; [|done].
    apply wait_for_response_split in E as [pre ->].
    destruct (get_fragment_info response) as [[t s]|] eqn:Hs; [|done].
    intros Hc Hfrags Hconn. apply (IH _ _ Hc).
    + intros i f. rewrite lookup_insert. case_decide as Hi.
      * intros [= <-]. subst i. apply (Hconn _ t); [|done].
        apply elem_of_app. right. apply list_elem_of_here.
      * apply Hfrags.
    + intros f t' s' Hf. apply Hconn.
      apply elem_of_app. right. by apply list_elem_of_further.
Qed.

(** The loop does not panic on messages whose descriptors can be read. *)
Lemma collect_no_panic request total fuel conn (frags : gmap Z Msg) :
  Forall (λ r, is_Some (get_fragment_info r)) conn →
  collect fuel request total frags conn ≠ Some IndexPanic.
Proof.
  revert frags conn. induction fuel as [|fuel IH]; intros frags conn Hok; simpl.
  - by case_bool_decide.
  - case_bool_decide as Hlt; [|done].
    destruct (wait_for_response request conn) as [[response|] conn'] eqn:E; [|done].
    apply wait_for_response_split in E as [pre ->].
    apply Forall_app in Hok as [_ Hok]. apply Forall_cons in Hok as [[[t s] ->] Hok].
    by apply IH.
Qed.

Lemma rebuild_loop_Some (frags : gmap Z Msg) ns m0 m :
  rebuild_loop frags ns m0 = Some m →
  ∃ fs, Forall2 (λ i f, frags !! i = Some f) ns fs ∧ m = foldl append_frag m0 fs.
Proof.
  revert m0. induction ns as [|n ns IH]; intros m0; simpl.
  - intros [= <-]. exists []. by split.
  - destruct (frags !! n) as [f|] eqn:E; [|done]. intros H.
    destruct (IH _ H) as (fs & Hfs & ->). exists (f :: fs). split; [|done].
    by constructor.
Qed.

Section WithLen.
Variable Len : Msg → Z.

(** When every message read has a descriptor of two octets or none, the
    proxy writes one message, and it is the
    first reply as it is, when that has no descriptor, or SERVFAIL, or the
    reply rebuilt from one received message for each of the sequence numbers
    [0 .. total-1], or that reply with the truncation flag set and no
    record. *)
Lemma ServeDNS_delivers (request : Msg) (conn : list Msg) :
  Forall (λ r, is_Some (get_fragment_info r)) conn →
  ∃ m, ServeDNS Len (Connected conn) request = Some (Written [m]) ∧
    ((∃ conn', wait_for_response request conn = (Some m, conn') ∧
               get_fragment_info m = Some (-1, -1))
     ∨ m = SRVFAIL request
     ∨ ∃ total f0 fs rebuilt,
         Forall2 (λ i f, f ∈ conn ∧ ∃ t, get_fragment_info f = Some (t, i))
                 (0 :: seqZ 1 (total - 1)) (f0 :: fs) ∧
         rebuilt = foldl append_frag f0 fs ∧
         (m = rebuilt ∨ m = truncate rebuilt)).
Proof.
  intros Hok. simpl. unfold receive.
  destruct (wait_for_response request conn) as [[first|] conn'] eqn:E.
  2:{ exists (SRVFAIL request). split; [reflexivity|]. right. left. reflexivity. }
  pose proof (wait_for_response_split _ _ _ _ E) as [pre Hconn].
  assert (first ∈ conn) as Hfirst.
  { rewrite Hconn. apply elem_of_app. right. apply list_elem_of_here. }
  assert (Forall (λ r, is_Some (get_fragment_info r)) conn') as Hok'.
  { rewrite Hconn in Hok. apply Forall_app in Hok as [_ Hok].
    by apply Forall_cons in Hok as [_ Hok]. }
  rewrite Forall_forall in Hok. destruct (Hok _ Hfirst) as [[total s] Hs].
  rewrite Hs. destruct (decide (total = -1)) as [->|Ht].
  { eexists. split; [done|]. left. exists conn'. split; [done|].
    destruct (Descriptor.get_fragment_info_range _ _ _ Hs) as [?|[? ?]];
      [congruence|lia]. }
  destruct (Collection.collect_total (S (length conn')) request total
              {[ s := first ]} conn') as [c Hc]; [lia|].
  rewrite Hc. destruct c as [frags| |].
  - destruct (rebuild frags total) as [rebuilt|] eqn:Hr;
      [|eexists; split; [done|]; right; by left].
    eexists. split; [done|]. right. right.
    unfold rebuild in Hr. destruct (frags !! 0) as [f0|] eqn:E0; [|done].
    apply rebuild_loop_Some in Hr as (fs & Hfs & ->).
    exists total, f0, fs, (foldl append_frag f0 fs).
    assert (∀ i f, frags !! i = Some f →
                   f ∈ conn ∧ ∃ t, get_fragment_info f = Some (t, i)) as Hsound.
    { apply (collect_sound _ _ _ _ _ _ _ Hc).
      - intros i f. rewrite lookup_singleton. case_decide; [|done].
        intros [= <-]. subst i. split; [done|]. by eexists.
      - intros f t' s' Hf Hinfo. split; [|by eexists].
        rewrite Hconn. apply elem_of_app. right.
        by apply list_elem_of_further. }
    split; [|split; [done|]].
    + constructor; [by apply Hsound|].
      eapply Forall2_impl; [exact Hfs|]. intros i f. apply Hsound.
    + unfold enforce. case_bool_decide; [by right|by left].
  - eexists. split; [done|]. right; by left.
  - by destruct (collect_no_panic request total (S (length conn'))
                   conn' {[ s := first ]} Hok').
Qed.

End WithLen.
End Classification.
(** ** Fragmentation followed by reassembly *)

Module RoundTrip.
Import ClientProxy Spec Examples.

Lemma map_seqZ_size (l : list Msg) :
  size (map_seqZ 0 l : gmap Z Msg) = length l.
Proof.
  induction l as [|x l IH] using rev_ind; [done|].
  rewrite map_seqZ_snoc, map_size_insert_None, IH, length_app; simpl; [lia|].
  apply map_seqZ_snoc_disjoint.
Qed.

(** Fragments with distinct sequence numbers, none of them stored yet,
    are all stored, each under its number, in whatever order they
    arrive. *)
Lemma collect_distinct request rest (frags : gmap Z Msg) fuel total :
  (length rest < fuel)%nat →
  Forall (λ f, Id (Header f) = Id (Header request)) rest →
  Forall (λ f, is_Some (get_fragment_info f)) rest →
  NoDup (seq_of <$> rest) →
  (∀ f, f ∈ rest → frags !! seq_of f = None) →
  total = Z.of_nat (size frags + length rest) →
  collect fuel request total frags rest
  = Some (Collected (frags ∪ list_to_map (stored <$> rest))).
Proof.
  revert frags fuel.
  induction rest as [|f rest IH]; intros frags fuel Hfuel Hid Hok Hnd Hfresh ->.
  - rewrite fmap_nil, list_to_map_nil, (right_id_L ∅ (∪)).
    destruct fuel; simpl; rewrite bool_decide_eq_false_2; auto; simpl; lia.
  - destruct fuel as [|fuel]; [simpl in Hfuel; lia|].
    cbn [collect]. rewrite bool_decide_eq_true_2 by (simpl; lia).
    apply Forall_cons in Hid as [Hf Hid]. apply Forall_cons in Hok as [[[t s] Hs] Hok].
    rewrite fmap_cons in Hnd. apply NoDup_cons in Hnd as [Hnew Hnd].
    cbn [wait_for_response]. rewrite decide_True by done. rewrite Hs.
    assert (seq_of f = s) as Hseq by (unfold seq_of; by rewrite Hs).
    assert (frags !! s = None) as Hnone.
    { rewrite <- Hseq. apply Hfresh, list_elem_of_here. }
    rewrite (IH (<[s := f]> frags) fuel); [|simpl in Hfuel; lia|done|done|done| |].
    + do 2 f_equal. rewrite fmap_cons. unfold stored at 2. rewrite Hseq.
      rewrite list_to_map_cons. by rewrite <- insert_union_l, insert_union_r.
    + intros f' Hf'. rewrite lookup_insert_ne.
      * apply Hfresh. by apply list_elem_of_further.
      * intros E. apply Hnew. rewrite Hseq, E. by apply list_elem_of_fmap_2.
    + rewrite map_size_insert_None by done. simpl. lia.
Qed.

(** The fragments stored under their sequence numbers, when fragment [i]
    carries the number [start + i]. *)
Lemma list_to_map_stored (F : list Msg) start :
  (∀ i f, F !! i = Some f → seq_of f = start + Z.of_nat i) →
  list_to_map (stored <$> F) = (map_seqZ start F : gmap Z Msg).
Proof.
  revert start. induction F as [|f F IH]; intros start Hseq; [done|].
  rewrite fmap_cons, map_seqZ_cons. unfold stored at 1.
  rewrite (Hseq 0%nat f eq_refl), Z.add_0_r, list_to_map_cons. f_equal.
  apply IH. intros i f' Hi. rewrite (Hseq (S i) f' Hi). lia.
Qed.

Lemma seq_of_fragments (F : list Msg) :
  (∀ i f, F !! i = Some f → seq_of f = Z.of_nat i) →
  seq_of <$> F = seqZ 0 (Z.of_nat (length F)).
Proof.
  intros Hseq. apply list_eq. intros i. rewrite list_lookup_fmap.
  destruct (F !! i) as [f|] eqn:E; simpl.
  - rewrite (Hseq _ _ E). apply lookup_lt_Some in E.
    symmetry. rewrite lookup_seqZ. lia.
  - apply lookup_ge_None in E. symmetry. apply lookup_seqZ_ge. lia.
Qed.

(** And the rebuilding loop appends them in that order. *)
Lemma rebuild_loop_in_order rest pre m :
  rebuild_loop (map_seqZ 0 (pre ++ rest))
    (seqZ (Z.of_nat (length pre)) (Z.of_nat (length rest))) m
  = Some (foldl append_frag m rest).
Proof.
  revert pre m. induction rest as [|f rest IH]; intros pre m; [done|].
  rewrite seqZ_cons by (rewrite length_cons; lia). cbn [rebuild_loop foldl].
  rewrite lookup_map_seqZ_0, Nat2Z.id, list_lookup_middle by (done || lia).
  specialize (IH (pre ++ [f]) (append_frag m f)).
  rewrite <- app_assoc, length_app in IH. cbn [app length] in IH.
  replace (Z.succ (Z.of_nat (length pre)))
    with (Z.of_nat (length pre + 1)) by lia.
  replace (Z.pred (Z.of_nat (length (f :: rest))))
    with (Z.of_nat (length rest)) by (rewrite length_cons; lia).
  exact IH.
Qed.

Lemma foldl_append_frag m l :
  foldl append_frag m l =
  mkMsg (Header m) (Compress m) (Questions m)
    (Answer m ++ concat (Answer <$> l))
    (Ns m ++ concat (Ns <$> l))
    (Extra m ++ concat ((λ f, filter (λ r, is_OPT r = false) (Extra f)) <$> l)).
Proof.
  revert m. induction l as [|f l IH]; intros m; simpl.
  - destruct m; simpl. by rewrite !app_nil_r.
  - rewrite IH. unfold append_frag; simpl. by rewrite <- !app_assoc.
Qed.

Lemma filter_no_OPT (l : list RR) :
  Forall (λ r, is_OPT r = false) l → filter (λ r, is_OPT r = false) l = l.
Proof.
  induction 1 as [|r l Hr _ IH]; [done|].
  by rewrite filter_cons_True, IH.
Qed.

(** In a section with one OPT record, the record [IsEdns0] finds is the
    one [frag] cuts out. *)
Lemma map_last_OPT_extract g l e extra :
  ServerProxy.extract_OPT l = Some (e, extra) →
  Forall (λ r, is_OPT r = false) extra →
  map_last_OPT g l ≡ₚ RR_OPT (g e) :: extra.
Proof.
  intros H Hone.
  apply FragFacts.extract_OPT_Some in H as (_ & pre & post & -> & -> & Hpre).
  apply Forall_app in Hone as [_ Hpost].
  rewrite OPTFacts.map_last_OPT_middle by done. by rewrite Permutation_middle.
Qed.

(** A complete set of fragments is rebuilt, in whatever order it arrives:
    fragment 0 with the sections of the others appended in the order of
    their sequence numbers. *)
Lemma receive_complete request F0 T conn :
  conn ≡ₚ F0 :: T →
  Forall (λ f, Id (Header f) = Id (Header request)) (F0 :: T) →
  (∀ i f, (F0 :: T) !! i = Some f →
          get_fragment_info f = Some (Z.of_nat (length (F0 :: T)), Z.of_nat i)) →
  receive request conn = Some (Rebuilt (foldl append_frag F0 T)).
Proof.
  intros Hperm Hid Hinfo.
  assert (∀ i f, (F0 :: T) !! i = Some f → seq_of f = Z.of_nat i) as Hseq.
  { intros i f Hf. unfold seq_of. by rewrite (Hinfo _ _ Hf). }
  assert (NoDup (seq_of <$> conn)) as Hnd.
  { rewrite Hperm, (seq_of_fragments _ Hseq). apply NoDup_seqZ. }
  assert (Forall (λ f, is_Some (get_fragment_info f)) conn) as Hok.
  { rewrite Hperm. apply Forall_lookup. intros i f Hf.
    rewrite (Hinfo _ _ Hf). by eexists. }
  rewrite <- Hperm in Hid.
  pose proof (Permutation_length Hperm) as Hlen.
  destruct conn as [|c0 rest]; [done|].
  apply Forall_cons in Hid as [Hid0 Hid]. apply Forall_cons in Hok as [_ Hok].
  assert (c0 ∈ F0 :: T) as Hc0 by (rewrite <- Hperm; apply list_elem_of_here).
  apply list_elem_of_lookup in Hc0 as [j Hj].
  unfold receive. cbn [wait_for_response]. rewrite decide_True by done.
  rewrite (Hinfo _ _ Hj), decide_False by lia.
  rewrite fmap_cons in Hnd. apply NoDup_cons in Hnd as [Hnew Hnd].
  rewrite (Hseq _ _ Hj) in Hnew.
  rewrite (collect_distinct request rest {[ Z.of_nat j := c0 ]});
    [|lia|done|done|done| |].
  - rewrite <- insert_union_singleton_l, <- (Hseq _ _ Hj).
    change (<[seq_of c0:=c0]> (list_to_map (stored <$> rest)))
      with (list_to_map (M:=gmap Z Msg) (stored <$> c0 :: rest)).
    rewrite (list_to_map_proper _ (stored <$> F0 :: T)); cycle 1.
    { rewrite <- list_fmap_compose. change (fst ∘ stored) with seq_of.
      rewrite Hperm, (seq_of_fragments _ Hseq). apply NoDup_seqZ. }
    { by rewrite Hperm. }
    rewrite (list_to_map_stored _ 0)
      by (intros i f Hf; rewrite (Hseq _ _ Hf); lia).
    unfold rebuild. rewrite lookup_map_seqZ_0 by lia.
    change ((F0 :: T) !! Z.to_nat 0) with (Some F0). cbv beta iota.
    replace (Z.of_nat (length (F0 :: T)) - 1) with (Z.of_nat (length T))
      by (rewrite length_cons; lia).
    change 1 with (Z.of_nat (length [F0])).
    change (F0 :: T) with ([F0] ++ T).
    by rewrite rebuild_loop_in_order.
  - intros f Hf. apply lookup_singleton_ne. intros E. apply Hnew.
    rewrite E. by apply list_elem_of_fmap_2.
  - rewrite map_size_singleton, <- Hlen. simpl. lia.
Qed.

Section WithLen.
Variable Len : Msg → Z.

(** C1, amended: let the reply have one OPT record, without a descriptor
    among its options, and let [frag] split it into at most 255
    fragments.  When the client proxy receives these fragments, in
    whatever order, for a query with the id of the reply, it rebuilds a
    message with the header, the questions, the
    answer section and the authority section of the reply; its
    additional section is the OPT record of the reply, with the
    descriptor of fragment 0 appended to its options, followed by the
    other records of the reply's additional section in their order. *)
Theorem round_trip (reply : Msg) (e : OPT) (extra : list RR) (fs : list Msg)
    (request : Msg) (conn : list Msg) :
  ServerProxy.extract_OPT (Extra reply) = Some (e, extra) →
  Forall (λ r, is_OPT r = false) extra →
  no_descriptor e →
  ServerProxy.build Len reply = Some (ServerProxy.Frags fs) →
  (length fs ≤ 255)%nat →
  Id (Header request) = Id (Header reply) →
  conn ≡ₚ ServerProxy.frag Len reply →
  ∃ m, receive request conn = Some (Rebuilt m) ∧
    Header m = Header reply ∧
    Questions m = Questions reply ∧
    Answer m = Answer reply ∧
    Ns m = Ns reply ∧
    Extra m = RR_OPT (with_option (descriptor (length fs) 0) e) :: extra ∧
    Extra m ≡ₚ map_last_OPT (with_option (descriptor (length fs) 0)) (Extra reply).
Proof.
  intros He Hone Hno Hb Hk Hid Hconn.
  rewrite (FixupFacts.frag_Frags _ _ _ Hb) in Hconn.
  apply FixupFacts.build_Frags in Hb
    as (e' & extra' & ps & He' & -> & Hne & _ & Ha & Hn & Hx).
  rewrite He in He'. injection He' as <- <-.
  rewrite length_fmap in *.
  destruct ps as [|p0 ps]; [done|]. clear Hne.
  assert (Forall (λ p, Forall (λ r, is_OPT r = false) (p_extra p)) (p0 :: ps)) as Hps.
  { apply Forall_lookup. intros i p Hp.
    apply (FixupFacts.pieces_no_OPT (p0 :: ps) i); [by rewrite <- Hx|done]. }
  apply Forall_cons in Hps as [Hp0 Hps]. rewrite Forall_lookup in Hps.
  unfold ServerProxy.fixup in Hconn.
  rewrite length_fmap, fmap_cons, imap_cons in Hconn.
  set (k := length (p0 :: ps)) in *.
  set (F0 := ServerProxy.fixup_frag k 0 (mk_frag reply e p0)) in *.
  set (T := imap (ServerProxy.fixup_frag k ∘ S) (mk_frag reply e <$> ps)) in *.
  assert (length T = length ps) as HT
    by (unfold T; by rewrite length_imap, length_fmap).
  assert (∀ i f, T !! i = Some f →
                 ∃ p, ps !! i = Some p ∧
                      Forall (λ r, is_OPT r = false) (p_extra p) ∧
                      f = ServerProxy.fixup_frag k (S i) (mk_frag reply e p)) as HTi.
  { intros i f. unfold T. rewrite list_lookup_imap, list_lookup_fmap.
    destruct (ps !! i) as [p|] eqn:Hp; [|done]. simpl. intros [= <-].
    exists p. split; [done|]. split; [by apply (Hps i)|done]. }
  assert (length (F0 :: T) = k) as HFk by (simpl; by rewrite HT).
  exists (foldl append_frag F0 T). split.
  - apply receive_complete; [done| |].
    + constructor; [by rewrite Hid|]. apply Forall_lookup. intros i f Hf.
      destruct (HTi _ _ Hf) as (p & _ & _ & ->). by rewrite Hid.
    + rewrite HFk. intros [|i] f Hf.
      * injection Hf as <-. unfold F0.
        rewrite FixupFacts.get_fragment_info_fixup by done.
        by rewrite !Z.mod_small by lia.
      * destruct (HTi i f Hf) as (p & Hp & Hpx & ->).
        rewrite FixupFacts.get_fragment_info_fixup by done.
        apply lookup_lt_Some in Hp.
        rewrite !Z.mod_small; [done| |lia]. subst k. simpl in *. lia.
  - rewrite foldl_append_frag. cbn [Header Questions Answer Ns Extra].
    assert (Answer <$> T = p_answer <$> ps) as ->.
    { apply list_eq. intros i. rewrite !list_lookup_fmap.
      destruct (T !! i) as [f|] eqn:Hf.
      - destruct (HTi _ _ Hf) as (p & -> & _ & ->). done.
      - apply lookup_ge_None in Hf. rewrite HT in Hf.
        apply lookup_ge_None in Hf. by rewrite Hf. }
    assert (Ns <$> T = p_ns <$> ps) as ->.
    { apply list_eq. intros i. rewrite !list_lookup_fmap.
      destruct (T !! i) as [f|] eqn:Hf.
      - destruct (HTi _ _ Hf) as (p & -> & _ & ->). done.
      - apply lookup_ge_None in Hf. rewrite HT in Hf.
        apply lookup_ge_None in Hf. by rewrite Hf. }
    assert ((λ f, filter (λ r, is_OPT r = false) (Extra f)) <$> T = p_extra <$> ps) as ->.
    { apply list_eq. intros i. rewrite !list_lookup_fmap.
      destruct (T !! i) as [f|] eqn:Hf.
      - destruct (HTi _ _ Hf) as (p & Hp & Hpx & ->). rewrite Hp.
        rewrite FixupFacts.fixup_frag_mk_frag by done. simpl.
        rewrite filter_cons_False by done. f_equal. by apply filter_no_OPT.
      - apply lookup_ge_None in Hf. rewrite HT in Hf.
        apply lookup_ge_None in Hf. by rewrite Hf. }
    unfold F0. rewrite FixupFacts.fixup_frag_mk_frag by done.
    cbn [Header Questions Answer Ns Extra].
    rewrite FixupFacts.fixup_OPT_copy by done.
    rewrite Ha, Hn, Hx. cbn [fmap list_fmap concat].
    repeat split; try done.
    rewrite (map_last_OPT_extract _ _ _ _ He Hone). by rewrite Hx.
Qed.

End WithLen.

Lemma round_trip_witness :
  ∃ m, receive (plain_query 7) (ServerProxy.frag wire_len medium_reply)
       = Some (Rebuilt m) ∧
    Header m = Header medium_reply ∧
    Questions m = Questions medium_reply ∧
    Answer m = Answer medium_reply ∧
    Ns m = Ns medium_reply ∧
    Extra m = RR_OPT (with_option (descriptor (length medium_frags) 0) backend_opt)
                :: [txt 30] ∧
    Extra m ≡ₚ map_last_OPT (with_option (descriptor (length medium_frags) 0))
                 (Extra medium_reply).
Proof.
  apply (round_trip wire_len medium_reply backend_opt [txt 30] medium_frags
           (plain_query 7) (ServerProxy.frag wire_len medium_reply)).
  - reflexivity.
  - repeat constructor.
  - constructor.
  - vm_compute. reflexivity.
  - vm_compute. lia.
  - reflexivity.
  - reflexivity.
Defined.

(** C1 as it is written fails on the reply that needs 256 fragments:
    every descriptor carries the total 0, so the client proxy takes
    fragment 0 for the whole reply and rebuilds a message with one answer
    out of 256. *)
Lemma round_trip_overflow :
  ServerProxy.build wire_len big_reply = Some (ServerProxy.Frags big_frags) ∧
  ∃ m, receive (plain_query 7) (ServerProxy.frag wire_len big_reply)
       = Some (Rebuilt m) ∧
    length (Answer m) = 1%nat ∧ length (Answer big_reply) = 256%nat ∧
    Answer m ≠ Answer big_reply.
Proof.
  split; [vm_compute; reflexivity|].
  destruct (receive (plain_query 7) (ServerProxy.frag wire_len big_reply))
    as [[r|m| |]|] eqn:E; try (vm_compute in E; discriminate).
  exists m. split; [done|].
  assert (length (Answer m) = 1%nat) as Hm.
  { apply (f_equal (λ o, match o with Some (Rebuilt m) => length (Answer m) | _ => 0%nat end)) in E.
    vm_compute in E. done. }
  repeat split; [done|]. intros H. rewrite H in Hm. vm_compute in Hm. discriminate.
Qed.

End RoundTrip.

(** ** More on what [frag] returns *)

Module Fragments.
Import ServerProxy Spec Examples.

(** A function of a fragment that the fix-up does not change, mapped
    over the fragments. *)
Lemma fmap_fixup {A} (g : Msg → A) (h : piece → A) reply e ps k :
  (∀ n i p, ps !! i = Some p → g (fixup_frag k n (mk_frag reply e p)) = h p) →
  g <$> imap (fixup_frag k) (mk_frag reply e <$> ps) = h <$> ps.
Proof.
  intros Hg. apply list_eq. intros i.
  rewrite !list_lookup_fmap, list_lookup_imap, list_lookup_fmap.
  destruct (ps !! i) as [p|] eqn:Hp; simpl; [|done]. by rewrite (Hg _ i).
Qed.

Lemma pieces_count (ps : list piece) :
  Forall (λ p, ¬ empty_piece p) ps →
  (length ps ≤ length (concat (p_answer <$> ps)) + length (concat (p_ns <$> ps))
              + length (concat (p_extra <$> ps)))%nat.
Proof.
  induction 1 as [|p ps Hp _ IH]; [simpl; lia|].
  rewrite !fmap_cons. cbn [concat]. rewrite !length_app.
  change (length (p :: ps)) with (S (length ps)).
  assert (1 ≤ length (p_answer p) + length (p_ns p) + length (p_extra p))%nat; [|lia].
  unfold empty_piece in Hp.
  destruct p as [[|] [|] [|]]; simpl in *; try lia.
  destruct Hp. by repeat split.
Qed.

Section WithLen.
Variable Len : Msg → Z.

Lemma frag_nil_cases (reply : Msg) :
  frag Len reply = [] ↔ IsEdns0 reply = None.
Proof.
  rewrite <- (FragFacts.build_None Len). unfold frag.
  destruct (build Len reply) as [[m|fs]|] eqn:Hb; [done| |done].
  split; [|done]. intros Hnil.
  apply FixupFacts.build_Frags in Hb as (e & extra & ps & _ & -> & Hne & _).
  apply (f_equal length) in Hnil. unfold fixup in Hnil.
  rewrite length_imap, length_fmap in Hnil. by destruct ps.
Qed.

(** X1: [frag] returns no message exactly for a reply without OPT
    record; for every other reply it returns one message at least. *)
Theorem frag_nil_iff (reply : Msg) :
  frag Len reply = [] ↔ IsEdns0 reply = None.
Proof. apply frag_nil_cases. Qed.

(** X2: the fragments of a reply with one OPT record keep the records of
    the reply in their order: the answer sections of the fragments, one
    after the other, are the answer section of the reply, likewise the
    authority sections, and the additional sections, each without the OPT
    record it starts with, are the additional section of the reply
    without its OPT record. *)
Theorem frag_order_preserved (reply : Msg) (e : OPT) (extra : list RR)
    (fs : list Msg) :
  extract_OPT (Extra reply) = Some (e, extra) →
  Forall (λ r, is_OPT r = false) extra →
  build Len reply = Some (Frags fs) →
  concat (Answer <$> frag Len reply) = Answer reply ∧
  concat (Ns <$> frag Len reply) = Ns reply ∧
  Forall (λ f, is_OPT <$> head (Extra f) = Some true) (frag Len reply) ∧
  concat ((λ f, drop 1 (Extra f)) <$> frag Len reply) = extra.
Proof.
  intros He Hone Hb. rewrite (FixupFacts.frag_Frags _ _ _ Hb).
  apply FixupFacts.build_Frags in Hb
    as (e' & extra' & ps & He' & -> & _ & _ & Ha & Hn & Hx).
  rewrite He in He'. injection He' as <- <-. unfold fixup.
  assert (∀ i p, ps !! i = Some p → Forall (λ r, is_OPT r = false) (p_extra p))
    as Hps.
  { intros i p. apply FixupFacts.pieces_no_OPT. by rewrite <- Hx. }
  rewrite (fmap_fixup Answer p_answer), (fmap_fixup Ns p_ns) by done.
  rewrite (fmap_fixup (λ f, drop 1 (Extra f)) p_extra); cycle 1.
  { intros n i p Hp. by rewrite FixupFacts.fixup_frag_mk_frag by by eapply Hps. }
  repeat split; try done.
  apply Forall_lookup. intros i f. rewrite list_lookup_imap, list_lookup_fmap.
  destruct (ps !! i) as [p|] eqn:Hp; simpl; [|done]. intros [= <-].
  by rewrite FixupFacts.fixup_frag_mk_frag by by eapply Hps.
Qed.

(** X3: when the reply has one OPT record, and that without a descriptor
    of its own, fragment [i] of [k] has the header and the questions of
    the reply, and its OPT record is that of the reply with one option
    appended: the descriptor with the octets [byte(k)] and [byte(i)]. *)
Theorem frag_fragment_OPT (reply : Msg) (e : OPT) (extra : list RR)
    (fs : list Msg) (i : nat) (f : Msg) :
  extract_OPT (Extra reply) = Some (e, extra) →
  Forall (λ r, is_OPT r = false) extra →
  no_descriptor e →
  build Len reply = Some (Frags fs) →
  frag Len reply !! i = Some f →
  Header f = Header reply ∧
  Questions f = Questions reply ∧
  IsEdns0 f = Some (with_option (descriptor (length fs) i) e).
Proof.
  intros He Hone Hno Hb. rewrite (FixupFacts.frag_Frags _ _ _ Hb).
  apply FixupFacts.build_Frags in Hb
    as (e' & extra' & ps & He' & -> & _ & _ & _ & _ & Hx).
  rewrite He in He'. injection He' as <- <-. unfold fixup.
  rewrite list_lookup_imap, list_lookup_fmap.
  destruct (ps !! i) as [p|] eqn:Hp; simpl; [|done]. intros [= <-].
  assert (Forall (λ r, is_OPT r = false) (p_extra p)) as Hpx.
  { apply (FixupFacts.pieces_no_OPT ps i); [by rewrite <- Hx|done]. }
  rewrite FixupFacts.fixup_frag_mk_frag by done. unfold IsEdns0.
  cbn [Header Questions Extra].
  by rewrite OPTFacts.last_OPT_cons_no_OPT, FixupFacts.fixup_OPT_copy.
Qed.

(** X4: a reply with no record besides its OPT record is not passed on
    as it is: [frag] returns one message, the header and the questions of
    the reply with the truncation flag set, without the OPT record. *)
Theorem frag_only_OPT (reply : Msg) (e : OPT) :
  Answer reply = [] →
  Ns reply = [] →
  extract_OPT (Extra reply) = Some (e, []) →
  frag Len reply =
  [set_Truncated (mkMsg (Header reply) (Compress reply) (Questions reply) [] [] [])
     true].
Proof.
  intros Ha Hn He. unfold frag, build. by rewrite He, Ha, Hn.
Qed.

(** When every record fits alone, the loop cannot end with the single
    message unless there is no record at all. *)
Lemma fit_no_Single fuel reply e q acc m :
  Forall (λ r, Len (add_Answer (new_frag reply e) r) ≤ 512) (remaining_answer q) →
  Forall (λ r, Len (add_Ns (new_frag reply e) r) ≤ 512) (remaining_ns q) →
  Forall (λ r, Len (add_Extra (new_frag reply e) r) ≤ 512) (remaining_extra q) →
  frag_loop Len fuel reply e q acc = Some (Single m) →
  queues_empty q = true.
Proof.
  intros Ha Hn Hx Hb.
  apply Overflow.frag_loop_Single_stuck in Hb
    as (q' & (Sa & Sn & Sx) & Ua & Un & Ux & Hq).
  assert (remaining_answer q' = []) as Ea.
  { destruct (remaining_answer q') as [|r l] eqn:E; [done|].
    specialize (Sa r l eq_refl). destruct Ua as [k Ua].
    rewrite Ua, Forall_app, Forall_cons in Ha. lia. }
  assert (remaining_ns q' = []) as En.
  { destruct (remaining_ns q') as [|r l] eqn:E; [done|].
    specialize (Sn r l eq_refl). destruct Un as [k Un].
    rewrite Un, Forall_app, Forall_cons in Hn. lia. }
  assert (remaining_extra q' = []) as Ex.
  { destruct (remaining_extra q') as [|r l] eqn:E; [done|].
    specialize (Sx r l eq_refl). destruct Ux as [k Ux].
    rewrite Ux, Forall_app, Forall_cons in Hx. lia. }
  assert (queues_empty q' = true) by by apply FragFacts.queues_empty_true.
  destruct Hq as [<-|Hq]; [done|congruence].
Qed.

(** X5: when the reply has one OPT record and a record besides it, and
    every such record fits into 512 octets together with the header and
    the copy of the OPT record, [frag] never gives the reply up as
    truncated: it returns fragments, each with its descriptor. *)
Theorem frag_splits_when_fit (reply : Msg) (e : OPT) (extra : list RR) :
  extract_OPT (Extra reply) = Some (e, extra) →
  Forall (λ r, is_OPT r = false) extra →
  Forall (λ r, Len (add_Answer (new_frag reply e) r) ≤ 512) (Answer reply) →
  Forall (λ r, Len (add_Ns (new_frag reply e) r) ≤ 512) (Ns reply) →
  Forall (λ r, Len (add_Extra (new_frag reply e) r) ≤ 512) extra →
  (Answer reply ≠ [] ∨ Ns reply ≠ [] ∨ extra ≠ []) →
  ∃ fs, build Len reply = Some (Frags fs) ∧
        frag Len reply = fixup fs ∧
        Forall (λ d, ∃ t s, d = Some (t, s) ∧ 0 ≤ t ∧ 0 ≤ s)
               (descriptors (frag Len reply)).
Proof.
  intros He Hone Ha Hn Hx Hne.
  destruct (build Len reply) as [[m|fs]|] eqn:Hb.
  - exfalso. unfold build in Hb. rewrite He in Hb.
    apply fit_no_Single in Hb; [|done..].
    apply FragFacts.queues_empty_true in Hb as (? & ? & ?). simpl in *.
    by destruct Hne as [|[|]].
  - exists fs. split; [done|]. split; [by apply FixupFacts.frag_Frags|].
    rewrite (FixupFacts.frag_descriptors _ _ _ _ _ He Hone Hb).
    apply Forall_fmap, Forall_forall. intros i _. simpl.
    eexists _, _. split; [done|].
    split; apply Z.mod_pos_bound; lia.
  - apply (FragFacts.build_None Len) in Hb. unfold IsEdns0 in Hb.
    apply OPTFacts.last_OPT_None, OPTFacts.first_OPT_None,
      FragFacts.extract_OPT_None in Hb.
    congruence.
Qed.

(** X6: every fragment holds a record besides the OPT record, so there
    are no more fragments than the reply has such records; a reply with
    one OPT record and at most 255 other records therefore gets the
    descriptors [(k, 0) .. (k, k-1)]. *)
Theorem frag_count (reply : Msg) (e : OPT) (extra : list RR) (fs : list Msg) :
  extract_OPT (Extra reply) = Some (e, extra) →
  build Len reply = Some (Frags fs) →
  (1 ≤ length (frag Len reply)
     ≤ length (Answer reply) + length (Ns reply) + length extra)%nat ∧
  (Forall (λ r, is_OPT r = false) extra →
   (length (Answer reply) + length (Ns reply) + length extra ≤ 255)%nat →
   descriptors (frag Len reply) =
   (λ i : nat, Some (Z.of_nat (length (frag Len reply)), Z.of_nat i))
     <$> seq 0 (length (frag Len reply))).
Proof.
  intros He Hb.
  pose proof (λ Hone, FixupFacts.frag_descriptors _ _ _ _ _ He Hone Hb) as Hd.
  rewrite (FixupFacts.frag_Frags _ _ _ Hb) in *.
  apply FixupFacts.build_Frags in Hb
    as (e' & extra' & ps & He' & -> & Hne & Hps & Ha & Hn & Hx).
  rewrite He in He'. injection He' as <- <-.
  unfold fixup in *. rewrite length_imap, length_fmap in *.
  assert (length ps ≤ length (Answer reply) + length (Ns reply) + length extra)%nat
    as Hle.
  { rewrite Ha, Hn, Hx. apply pieces_count.
    eapply Forall_impl; [exact Hps|]. by intros p [Hp _]. }
  split; [destruct ps; [done|simpl in *; lia]|].
  intros Hone Hsmall. rewrite (Hd Hone). apply list_eq. intros i.
  rewrite !list_lookup_fmap.
  destruct (seq 0 (length ps) !! i) as [j|] eqn:E; [|done]. simpl.
  apply lookup_seq in E as [-> Hi]. by rewrite !Z.mod_small by lia.
Qed.

End WithLen.

Lemma frag_order_preserved_witness :
  concat (Answer <$> frag wire_len medium_reply) = Answer medium_reply ∧
  concat (Ns <$> frag wire_len medium_reply) = Ns medium_reply ∧
  Forall (λ f, is_OPT <$> head (Extra f) = Some true) (frag wire_len medium_reply) ∧
  concat ((λ f, drop 1 (Extra f)) <$> frag wire_len medium_reply) = [txt 30].
Proof.
  apply (frag_order_preserved wire_len medium_reply backend_opt [txt 30] medium_frags).
  - reflexivity.
  - repeat constructor.
  - vm_compute. reflexivity.
Defined.

Lemma frag_fragment_OPT_witness :
  ∃ f, frag wire_len medium_reply !! 2%nat = Some f ∧
    Header f = Header medium_reply ∧
    Questions f = Questions medium_reply ∧
    IsEdns0 f = Some (with_option (descriptor (length medium_frags) 2) backend_opt).
Proof.
  destruct (frag wire_len medium_reply !! 2%nat) as [f|] eqn:E;
    [|vm_compute in E; discriminate].
  exists f. split; [done|].
  apply (frag_fragment_OPT wire_len medium_reply backend_opt [txt 30] medium_frags
           2 f).
  - reflexivity.
  - repeat constructor.
  - constructor.
  - vm_compute. reflexivity.
  - exact E.
Defined.

Lemma frag_only_OPT_witness :
  frag wire_len (reply 7 [] [] [RR_OPT backend_opt]) =
  [set_Truncated (mkMsg (hdr 7) false [question] [] [] []) true].
Proof.
  apply (frag_only_OPT wire_len (reply 7 [] [] [RR_OPT backend_opt]) backend_opt);
    reflexivity.
Defined.

Lemma frag_splits_when_fit_witness :
  ∃ fs, build wire_len medium_reply = Some (Frags fs) ∧
        frag wire_len medium_reply = fixup fs ∧
        Forall (λ d, ∃ t s, d = Some (t, s) ∧ 0 ≤ t ∧ 0 ≤ s)
               (descriptors (frag wire_len medium_reply)).
Proof.
  apply (frag_splits_when_fit wire_len medium_reply backend_opt [txt 30]).
  - reflexivity.
  - repeat constructor.
  - vm_compute. repeat constructor; discriminate.
  - vm_compute. repeat constructor; discriminate.
  - vm_compute. repeat constructor; discriminate.
  - left. discriminate.
Defined.

Lemma frag_count_witness :
  (1 ≤ length (frag wire_len medium_reply)
     ≤ length (Answer medium_reply) + length (Ns medium_reply) + length [txt 30])%nat ∧
  (Forall (λ r, is_OPT r = false) [txt 30] →
   (length (Answer medium_reply) + length (Ns medium_reply) + length [txt 30] ≤ 255)%nat →
   descriptors (frag wire_len medium_reply) =
   (λ i : nat, Some (Z.of_nat (length (frag wire_len medium_reply)), Z.of_nat i))
     <$> seq 0 (length (frag wire_len medium_reply))).
Proof.
  apply (frag_count wire_len medium_reply backend_opt [txt 30] medium_frags).
  - reflexivity.
  - vm_compute. reflexivity.
Defined.

End Fragments.

(** ** The server proxy and the capability marker *)

Module Capability.
Import ServerProxy Spec Examples.

Lemma remove_first_code_None code opts :
  remove_first_code code opts = None ↔ Forall (λ e, Code e ≠ code) opts.
Proof.
  induction opts as [|o opts IH]; simpl.
  - split; [constructor|done].
  - rewrite Forall_cons. destruct (decide (Code o = code)) as [E|E].
    + split; [done|tauto].
    + destruct (remove_first_code code opts) as [l|].
      * split; [done|]. intros [_ H]. apply IH in H. done.
      * split; [|done]. intros _. split; [done|]. by apply IH.
Qed.

(** The first option with the code is the one that goes. *)
Lemma remove_first_code_middle code pre c post :
  Forall (λ e, Code e ≠ code) pre →
  Code c = code →
  remove_first_code code (pre ++ c :: post) = Some (pre ++ post).
Proof.
  intros Hpre Hc. induction Hpre as [|o pre Ho _ IH]; simpl.
  - by rewrite decide_True.
  - by rewrite decide_False, IH.
Qed.

Lemma consume_capability_header request :
  Header (consume_capability request).2 = Header request ∧
  Questions (consume_capability request).2 = Questions request ∧
  Answer (consume_capability request).2 = Answer request ∧
  Ns (consume_capability request).2 = Ns request.
Proof.
  unfold consume_capability. destruct (IsEdns0 request) as [o|]; [|done].
  by destruct (remove_first_code EDNS0LOCALSTART (Option o)).
Qed.

Section WithLen.
Variable Len : Msg → Z.

(** X7: a query without the capability marker, that is without OPT
    record or with an OPT record none of whose options has the code of
    the marker, goes to the backend as it is, and the reply of the backend
    is written to the client as it is, whatever its size and whether or
    not it has an OPT record; an error of the backend gives SERVFAIL. *)
Theorem server_transparent (exchange : Msg → option Msg) (request : Msg) :
  (∀ o, IsEdns0 request = Some o → Forall (λ e, Code e ≠ CAP_CODE) (Option o)) →
  consume_capability request = (false, request) ∧
  ServeDNS Len exchange request =
  match exchange request with
  | Some response => [response]
  | None => [SRVFAIL request]
  end.
Proof.
  intros Hno.
  assert (consume_capability request = (false, request)) as Hc.
  { unfold consume_capability. destruct (IsEdns0 request) as [o|]; [|done].
    specialize (Hno o eq_refl). apply remove_first_code_None in Hno.
    unfold CAP_CODE in Hno. by rewrite Hno. }
  split; [done|]. unfold ServeDNS. rewrite Hc.
  by destruct (exchange request).
Qed.

(** X8: for a query with the capability marker, the query that goes to
    the backend differs from it only in the OPT record that [IsEdns0]
    finds, its last one: the UDP size is 65535 and the first option with
    the code of the marker is gone, the other options are kept in their
    order. *)
Theorem consume_capability_effect (request : Msg) (o : OPT)
    (pre : list EDNS0) (c : EDNS0) (post : list EDNS0) :
  IsEdns0 request = Some o →
  Option o = pre ++ c :: post →
  Forall (λ e, Code e ≠ CAP_CODE) pre →
  Code c = CAP_CODE →
  ∃ request' o',
    consume_capability request = (true, request') ∧
    IsEdns0 request' = Some o' ∧
    UDPSize o' = 65535 ∧
    Option o' = pre ++ post ∧
    Name (Hdr o') = Name (Hdr o) ∧ Ttl (Hdr o') = Ttl (Hdr o) ∧
    Extra request' = map_last_OPT (λ _, o') (Extra request) ∧
    Header request' = Header request ∧
    Questions request' = Questions request ∧
    Answer request' = Answer request ∧
    Ns request' = Ns request.
Proof.
  intros Ho Hopt Hpre Hc. unfold consume_capability. rewrite Ho, Hopt.
  unfold CAP_CODE in *. rewrite remove_first_code_middle by done.
  eexists _, (mkOPT (Hdr (SetUDPSize o 65535)) (pre ++ post)).
  split; [done|]. unfold IsEdns0 in *. cbn [Extra set_Extra].
  rewrite OPTFacts.last_OPT_map_last_OPT, Ho. simpl. repeat split; try done.
  by apply (OPTFacts.map_last_OPT_const
              (λ o0, mkOPT (Hdr (SetUDPSize o0 65535)) (pre ++ post))).
Qed.

(** X9: when the exchange with the backend fails, the server proxy writes
    one message, whether or not the query has the marker: the SERVFAIL
    reply with the id and the first question of the query, the rcode 2 and
    no record. *)
Theorem server_backend_error (exchange : Msg → option Msg) (request : Msg) :
  exchange (consume_capability request).2 = None →
  ∃ m, ServeDNS Len exchange request = [m] ∧
    Id (Header m) = Id (Header request) ∧
    Response (Header m) = true ∧
    Rcode (Header m) = RcodeServerFailure ∧
    Questions m = take 1 (Questions request) ∧
    Answer m = [] ∧ Ns m = [] ∧ Extra m = [].
Proof.
  intros Hx. unfold ServeDNS.
  destruct (consume_capability_header request) as (Hh & Hq & _).
  destruct (consume_capability request) as [b request']. simpl in *.
  rewrite Hx. eexists. split; [done|]. simpl. by rewrite Hh, Hq.
Qed.

End WithLen.

Lemma server_transparent_witness :
  consume_capability (plain_query 7) = (false, plain_query 7) ∧
  ServeDNS wire_len (λ _, Some reply_without_opt) (plain_query 7) =
  match (λ _ : Msg, Some reply_without_opt) (plain_query 7) with
  | Some response => [response]
  | None => [SRVFAIL (plain_query 7)]
  end.
Proof.
  apply (server_transparent wire_len (λ _, Some reply_without_opt) (plain_query 7)).
  intros o Ho. vm_compute in Ho. discriminate.
Defined.

Lemma consume_capability_effect_witness :
  ∃ request' o',
    consume_capability (marked_query 7) = (true, request') ∧
    IsEdns0 request' = Some o' ∧
    UDPSize o' = 65535 ∧
    Option o' = [] ++ [] ∧
    Name (Hdr o') = "." ∧ Ttl (Hdr o') = 0 ∧
    Extra request' = map_last_OPT (λ _, o') (Extra (marked_query 7)) ∧
    Header request' = Header (marked_query 7) ∧
    Questions request' = Questions (marked_query 7) ∧
    Answer request' = Answer (marked_query 7) ∧
    Ns request' = Ns (marked_query 7).
Proof.
  apply (consume_capability_effect (marked_query 7)
           (mkOPT (mkRR_Header "." TypeOPT 512 0 0) [mkEDNS0 CAP_CODE []])
           [] (mkEDNS0 CAP_CODE []) []).
  - reflexivity.
  - reflexivity.
  - constructor.
  - reflexivity.
Defined.

Lemma server_backend_error_witness :
  ∃ m, ServeDNS wire_len (λ _, None) (marked_query 7) = [m] ∧
    Id (Header m) = Id (Header (marked_query 7)) ∧
    Response (Header m) = true ∧
    Rcode (Header m) = RcodeServerFailure ∧
    Questions m = take 1 (Questions (marked_query 7)) ∧
    Answer m = [] ∧ Ns m = [] ∧ Extra m = [].
Proof.
  apply (server_backend_error wire_len (λ _, None) (marked_query 7)).
  reflexivity.
Defined.

End Capability.

(** ** The query the client proxy sends, and what the server proxy makes of it *)

Module Marking.
Import ClientProxy Spec Examples.

(** The OPT record of the query sent upstream. *)
Lemma proxy_req_OPT request :
  IsEdns0 (proxy_req request) =
  Some (with_option (mkEDNS0 CAP_CODE [])
          (default (new_OPT 512) (IsEdns0 request))).
Proof.
  unfold proxy_req, IsEdns0.
  destruct (last_OPT (Extra request)) as [o|] eqn:E; cbn [Extra set_Extra SetEdns0].
  - by rewrite OPTFacts.last_OPT_map_last_OPT, E.
  - by rewrite OPTFacts.last_OPT_map_last_OPT, OPTFacts.last_OPT_snoc.
Qed.

(** X10: the query the client proxy sends upstream has the header, the
    questions and the answer and authority sections of the query it got;
    it has an OPT record, that of the query or a new one with the UDP size
    512, which advertises what the proxy takes for the buffer size of the
    client and whose last option is the capability marker, without data;
    and the server proxy finds the marker in it. *)
Theorem proxy_req_marked (request : Msg) :
  Header (proxy_req request) = Header request ∧
  Questions (proxy_req request) = Questions request ∧
  Answer (proxy_req request) = Answer request ∧
  Ns (proxy_req request) = Ns request ∧
  ∃ o, IsEdns0 (proxy_req request) = Some o ∧
    UDPSize o = client_buf_size request ∧
    Option o = match IsEdns0 request with
               | Some o0 => Option o0
               | None => []
               end ++ [mkEDNS0 CAP_CODE []] ∧
    (ServerProxy.consume_capability (proxy_req request)).1 = true.
Proof.
  split; [by unfold proxy_req; destruct (IsEdns0 request)|].
  split; [by unfold proxy_req; destruct (IsEdns0 request)|].
  split; [by unfold proxy_req; destruct (IsEdns0 request)|].
  split; [by unfold proxy_req; destruct (IsEdns0 request)|].
  eexists. split; [apply proxy_req_OPT|]. unfold client_buf_size.
  split; [by destruct (IsEdns0 request)|].
  split; [by destruct (IsEdns0 request)|].
  eapply NoOPT.consume_capability_marked; [apply proxy_req_OPT|].
  exists (mkEDNS0 CAP_CODE []). split; [|done]. simpl.
  apply elem_of_app. right. apply list_elem_of_here.
Qed.

(** X11: the marker makes the round from the client proxy to the server
    proxy and is gone.  For a query without the marker of its own, the
    backend gets the query of the client with one change: the UDP size of
    its OPT record is 65535, or, when it had no OPT record, it has one
    with that size and no option. *)
Theorem capability_round_trip (request : Msg) :
  (∀ o, IsEdns0 request = Some o → Forall (λ e, Code e ≠ CAP_CODE) (Option o)) →
  ServerProxy.consume_capability (proxy_req request) =
  (true,
   match IsEdns0 request with
   | Some _ =>
       set_Extra request (map_last_OPT (λ o, SetUDPSize o 65535) (Extra request))
   | None => SetEdns0 request 65535
   end).
Proof.
  intros Hno. unfold ServerProxy.consume_capability.
  rewrite proxy_req_OPT. cbn [Option with_option].
  change EDNS0LOCALSTART with CAP_CODE.
  rewrite Capability.remove_first_code_middle; [|by destruct (IsEdns0 request); auto|done].
  rewrite app_nil_r. f_equal. unfold proxy_req, IsEdns0 in *.
  destruct (last_OPT (Extra request)) as [o|] eqn:E.
  - unfold set_Extra; cbn [Header Compress Questions Answer Ns Extra default].
    f_equal. rewrite OPTFacts.map_last_OPT_compose.
    rewrite (OPTFacts.map_last_OPT_const _ _ _ E).
    rewrite (OPTFacts.map_last_OPT_const (λ o0, SetUDPSize o0 65535) _ _ E).
    by destruct o.
  - unfold SetEdns0, set_Extra.
    cbn [Header Compress Questions Answer Ns Extra default]. f_equal.
    by rewrite !OPTFacts.map_last_OPT_snoc.
Qed.

Lemma capability_round_trip_witness :
  ServerProxy.consume_capability (proxy_req (plain_query 7)) =
  (true,
   match IsEdns0 (plain_query 7) with
   | Some _ =>
       set_Extra (plain_query 7)
         (map_last_OPT (λ o, SetUDPSize o 65535) (Extra (plain_query 7)))
   | None => SetEdns0 (plain_query 7) 65535
   end).
Proof.
  apply (capability_round_trip (plain_query 7)).
  intros o Ho. vm_compute in Ho. discriminate.
Defined.

End Marking.

(** ** More on what the client proxy reads and writes *)

Module Reading.
Import ClientProxy Spec Examples.

Lemma wait_for_response_cases (request : Msg) (conn : list Msg) :
  match wait_for_response request conn with
  | (Some response, conn') =>
      ∃ pre, conn = pre ++ response :: conn' ∧
        Forall (λ m, Id (Header m) ≠ Id (Header request)) pre ∧
        Id (Header response) = Id (Header request)
  | (None, conn') =>
      conn' = [] ∧ Forall (λ m, Id (Header m) ≠ Id (Header request)) conn
  end.
Proof.
  induction conn as [|m conn IH]; simpl; [by split|].
  destruct (decide (Id (Header m) = Id (Header request))) as [E|E].
  - exists []. by repeat split.
  - destruct (wait_for_response request conn) as [[response|] conn'].
    + destruct IH as (pre & -> & Hpre & Hid). exists (m :: pre).
      repeat split; [|done]. by constructor.
    + destruct IH as [-> Hall]. split; [done|]. by constructor.
Qed.

(** X12: [wait_for_response] passes over the messages with another id
    and returns the first one with the id of the query, and with it the
    messages not yet read; it fails exactly when no message has that id,
    and then the connection is read to its end. *)
Theorem wait_for_response_first (request : Msg) (conn : list Msg) :
  match wait_for_response request conn with
  | (Some response, conn') =>
      ∃ pre, conn = pre ++ response :: conn' ∧
        Forall (λ m, Id (Header m) ≠ Id (Header request)) pre ∧
        Id (Header response) = Id (Header request)
  | (None, conn') =>
      conn' = [] ∧ Forall (λ m, Id (Header m) ≠ Id (Header request)) conn
  end.
Proof. apply wait_for_response_cases. Qed.

Lemma wait_for_response_app request conn more response conn' :
  wait_for_response request conn = (Some response, conn') →
  wait_for_response request (conn ++ more) = (Some response, conn' ++ more).
Proof.
  induction conn as [|m conn IH]; simpl; [done|].
  destruct (decide (Id (Header m) = Id (Header request))); [by intros [= <- <-]|].
  apply IH.
Qed.

(** The loop does not read on once it has all it waits for. *)
Lemma collect_app fuel fuel' request total (frags : gmap Z Msg) conn more c :
  collect fuel request total frags conn = Some c →
  c ≠ ReadFailed →
  (fuel ≤ fuel')%nat →
  collect fuel' request total frags (conn ++ more) = Some c.
Proof.
  revert fuel' frags conn. induction fuel as [|fuel IH]; intros fuel' frags conn.
  - simpl. case_bool_decide as Hlt; [done|]. intros [= <-] _ _.
    destruct fuel'; simpl; by rewrite bool_decide_eq_false_2.
  - intros Hc Hne Hfuel. destruct fuel' as [|fuel']; [lia|]. simpl in *.
    case_bool_decide as Hlt; [|done].
    destruct (wait_for_response request conn) as [[response|] conn'] eqn:E.
    + rewrite (wait_for_response_app _ _ more _ _ E).
      destruct (get_fragment_info response) as [[t s]|]; [|done].
      apply (IH fuel'); [done|done|lia].
    + by injection Hc as <-.
Qed.

(** Everything the loop stores has the id of the query. *)
Lemma collect_ids fuel request total (frags frags' : gmap Z Msg) conn :
  collect fuel request total frags conn = Some (Collected frags') →
  (∀ i f, frags !! i = Some f → Id (Header f) = Id (Header request)) →
  ∀ i f, frags' !! i = Some f → Id (Header f) = Id (Header request).
Proof.
  revert frags conn. induction fuel as [|fuel IH]; intros frags conn; simpl.
  - case_bool_decide as Hlt; [done|]. by intros [= <-].
  - case_bool_decide as Hlt; [|by intros [= <-]].
    destruct (wait_for_response request conn) as [[response|] conn'] eqn:E; [|done].
    apply Collection.wait_for_response_shorter in E as (_ & _ & Hid).
    destruct (get_fragment_info response) as [[t s]|]; [|done].
    intros Hc Hfrags. apply (IH _ _ Hc).
    intros i f. rewrite lookup_insert. case_decide; [by intros [= <-]|].
    apply Hfrags.
Qed.

(** With fewer messages left than fragments missing, the loop ends with
    a failed read. *)
Lemma collect_short fuel request total (frags : gmap Z Msg) conn :
  (length conn < fuel)%nat →
  Z.of_nat (size frags + length conn) < total →
  Forall (λ r, is_Some (get_fragment_info r)) conn →
  collect fuel request total frags conn = Some ReadFailed.
Proof.
  revert frags conn. induction fuel as [|fuel IH]; intros frags conn Hfuel Hlt Hok;
    [lia|].
  simpl. rewrite bool_decide_eq_true_2 by lia.
  destruct (wait_for_response request conn) as [[response|] conn'] eqn:E; [|done].
  apply Classification.wait_for_response_split in E as [pre ->].
  apply Forall_app in Hok as [_ Hok].
  apply Forall_cons in Hok as [[[t s] ->] Hok].
  rewrite length_app in *. cbn [length] in *.
  apply IH; [lia| |done].
  pose proof (map_size_insert s response frags) as Hs.
  destruct (frags !! s); unfold id in Hs; lia.
Qed.

Section WithLen.
Variable Len : Msg → Z.

(** X13: a call of [ServeDNS] that does not panic writes one message, and
    that message has the id of the query, whatever the upstream sends. *)
Theorem client_one_message (up : upstream) (request : Msg) :
  ServeDNS Len up request = Some Panicked ∨
  ∃ m, ServeDNS Len up request = Some (Written [m]) ∧
       Id (Header m) = Id (Header request).
Proof.
  destruct up as [| |conn]; simpl; [right; by eexists..|].
  unfold receive.
  destruct (wait_for_response request conn) as [[first|] conn'] eqn:E;
    [|right; by eexists].
  apply Collection.wait_for_response_shorter in E as (_ & _ & Hid).
  destruct (get_fragment_info first) as [[total s]|]; [|by left].
  destruct (decide (total = -1)); [right; by eexists|].
  destruct (Collection.collect_total (S (length conn')) request total
              {[ s := first ]} conn') as [c Hc]; [lia|].
  rewrite Hc. destruct c as [frags| |]; [|right; by eexists|by left].
  destruct (rebuild frags total) as [rebuilt|] eqn:Hr; [|right; by eexists].
  right. eexists. split; [done|].
  unfold rebuild in Hr. destruct (frags !! 0) as [f0|] eqn:E0; [|done].
  apply Classification.rebuild_loop_Some in Hr as (fs & _ & ->).
  assert (Id (Header f0) = Id (Header request)) as Hf0.
  { apply (collect_ids _ _ _ _ _ _ Hc) with 0; [|done].
    intros i f. rewrite lookup_singleton. case_decide; [|done]. by intros [= <-]. }
  unfold enforce. rewrite RoundTrip.foldl_append_frag.
  by case_bool_decide.
Qed.

(** X14: when the first reply announces more fragments than there are
    messages to read before the deadline, the proxy delivers nothing of
    what it has read: it writes SERVFAIL. *)
Theorem too_few_fragments (request : Msg) (conn : list Msg) (first : Msg)
    (conn' : list Msg) (total seq : Z) :
  wait_for_response request conn = (Some first, conn') →
  get_fragment_info first = Some (total, seq) →
  Z.of_nat (S (length conn')) < total →
  Forall (λ r, is_Some (get_fragment_info r)) conn' →
  ServeDNS Len (Connected conn) request = Some (Written [SRVFAIL request]).
Proof.
  intros Hw Hi Hlt Hok. simpl. unfold receive.
  rewrite Hw, Hi, decide_False by lia.
  rewrite collect_short; [done|lia| |done].
  rewrite map_size_singleton. lia.
Qed.

End WithLen.

(** X15: messages that arrive after the reply is complete are not read:
    what the proxy has in hand, unless it is a failed read, and what it
    writes to the client stay the same when more messages follow on the
    connection. *)
Theorem late_messages_ignored (Len : Msg → Z) (request : Msg)
    (conn more : list Msg) (r : received) :
  receive request conn = Some r →
  r ≠ Failed →
  receive request (conn ++ more) = Some r ∧
  ServeDNS Len (Connected (conn ++ more)) request
  = ServeDNS Len (Connected conn) request.
Proof.
  intros Hr Hne.
  assert (receive request (conn ++ more) = Some r) as Hr'.
  { revert Hr Hne. unfold receive.
    destruct (wait_for_response request conn) as [[first|] conn'] eqn:E;
      [|by intros [= <-]].
    rewrite (wait_for_response_app _ _ more _ _ E).
    destruct (get_fragment_info first) as [[total s]|]; [|done].
    destruct (decide (total = -1)); [done|].
    destruct (collect (S (length conn')) request total {[s := first]} conn')
      as [c|] eqn:Hc; [|done].
    intros Hr Hne.
    rewrite (collect_app _ (S (length (conn' ++ more))) _ _ _ _ _ _ Hc);
      [done| |rewrite length_app; lia].
    intros ->. by injection Hr as <-. }
  split; [done|]. simpl. by rewrite Hr, Hr'.
Qed.

(** X16: a first reply whose descriptor announces one fragment or none is
    all the proxy reads.  With the sequence number 0 it is the rebuilt
    reply as it is and goes to the client after the check against the
    buffer size; with another sequence number there is no fragment 0 and
    the proxy writes SERVFAIL. *)
Theorem single_fragment (Len : Msg → Z) (request : Msg) (conn : list Msg)
    (first : Msg) (conn' : list Msg) (total seq : Z) :
  wait_for_response request conn = (Some first, conn') →
  get_fragment_info first = Some (total, seq) →
  0 ≤ total ≤ 1 →
  ServeDNS Len (Connected conn) request =
  Some (Written [if decide (seq = 0)
                 then enforce Len (client_buf_size request) first
                 else SRVFAIL request]).
Proof.
  intros Hw Hi Ht. simpl. unfold receive. rewrite Hw, Hi, decide_False by lia.
  cbn [collect]. rewrite bool_decide_eq_false_2
    by (rewrite map_size_singleton; lia).
  unfold rebuild. rewrite lookup_singleton.
  destruct (decide (seq = 0)) as [->|Hs].
  - by rewrite seqZ_nil by lia.
  - done.
Qed.

Lemma too_few_fragments_witness :
  ServeDNS wire_len (Connected [fragment x03 x01; fragment x03 x02]) (plain_query 7)
  = Some (Written [SRVFAIL (plain_query 7)]).
Proof.
  apply (too_few_fragments wire_len (plain_query 7)
           [fragment x03 x01; fragment x03 x02]
           (fragment x03 x01) [fragment x03 x02] 3 1).
  - reflexivity.
  - reflexivity.
  - simpl. lia.
  - repeat constructor; by eexists.
Defined.

Lemma late_messages_ignored_witness :
  receive (plain_query 7)
    ([fragment x02 x00; fragment x02 x01] ++ [fragment x02 x00])
  = Some (Rebuilt (append_frag (fragment x02 x00) (fragment x02 x01))) ∧
  ServeDNS wire_len
    (Connected ([fragment x02 x00; fragment x02 x01] ++ [fragment x02 x00]))
    (plain_query 7)
  = ServeDNS wire_len (Connected [fragment x02 x00; fragment x02 x01])
      (plain_query 7).
Proof.
  apply (late_messages_ignored wire_len (plain_query 7)
           [fragment x02 x00; fragment x02 x01] [fragment x02 x00]).
  - vm_compute. reflexivity.
  - discriminate.
Defined.

Lemma single_fragment_witness :
  ServeDNS wire_len (Connected [fragment x01 x00; fragment x01 x00]) (plain_query 7)
  = Some (Written [if decide (0 = 0)
                   then enforce wire_len (client_buf_size (plain_query 7))
                          (fragment x01 x00)
                   else SRVFAIL (plain_query 7)]).
Proof.
  apply (single_fragment wire_len (plain_query 7)
           [fragment x01 x00; fragment x01 x00]
           (fragment x01 x00) [fragment x01 x00] 1 0).
  - reflexivity.
  - reflexivity.
  - lia.
Defined.

End Reading.

(** ** Fragments in any order, with repetitions *)

Module Arrival.
Import ClientProxy Spec Examples.

(** The loop ends with all the fragments stored, each under its number,
    when every message with the id of the query is one of the fragments
    and every fragment is stored already or still to come. *)
Lemma collect_all request (F : list Msg) fuel conn (frags : gmap Z Msg) :
  Forall (λ f, Id (Header f) = Id (Header request)) F →
  (∀ i f, F !! i = Some f →
          get_fragment_info f = Some (Z.of_nat (length F), Z.of_nat i)) →
  (length conn < fuel)%nat →
  frags ⊆ map_seqZ 0 F →
  (∀ m, m ∈ conn → Id (Header m) = Id (Header request) → m ∈ F) →
  (∀ i f, F !! i = Some f → f ∈ conn ∨ frags !! Z.of_nat i = Some f) →
  collect fuel request (Z.of_nat (length F)) frags conn
  = Some (Collected (map_seqZ 0 F)).
Proof.
  intros Hid Hinfo. revert conn frags.
  induction fuel as [|fuel IH]; intros conn frags Hfuel Hsub Hconn Hcover; [lia|].
  cbn [collect]. case_bool_decide as Hlt.
  - destruct (wait_for_response request conn) as [[r|] conn'] eqn:E.
    + pose proof (Reading.wait_for_response_cases request conn) as Hw.
      rewrite E in Hw. destruct Hw as (pre & -> & Hpre & Hr).
      assert (r ∈ F) as HrF.
      { apply Hconn; [|done]. apply elem_of_app. right. apply list_elem_of_here. }
      apply list_elem_of_lookup in HrF as [j Hj].
      rewrite (Hinfo _ _ Hj). apply IH.
      * rewrite length_app in Hfuel. cbn [length] in Hfuel. lia.
      * apply insert_subseteq_l; [|done].
        rewrite lookup_map_seqZ_0 by lia. by rewrite Nat2Z.id.
      * intros m Hm. apply Hconn. apply elem_of_app. right.
        by apply list_elem_of_further.
      * intros i f Hf. rewrite lookup_insert. case_decide as Hij.
        { right. apply Nat2Z.inj in Hij. subst i. congruence. }
        destruct (Hcover _ _ Hf) as [Hin|Hin]; [|by right].
        apply elem_of_app in Hin as [Hin|Hin].
        { rewrite Forall_forall in Hpre, Hid. exfalso. apply (Hpre _ Hin).
          apply Hid. by eapply list_elem_of_lookup_2. }
        apply elem_of_cons in Hin as [->|Hin]; [|by left].
        exfalso. apply Hij. f_equal.
        pose proof (Hinfo _ _ Hf) as H1. rewrite (Hinfo _ _ Hj) in H1.
        injection H1 as H1. lia.
    + exfalso. pose proof (Reading.wait_for_response_cases request conn) as Hw.
      rewrite E in Hw. destruct Hw as [_ Hnone].
      assert (map_seqZ 0 F ⊆ frags) as Hall.
      { apply map_subseteq_spec. intros i f Hf.
        apply lookup_map_seqZ_Some in Hf as [Hi Hf]. rewrite Z.sub_0_r in Hf.
        destruct (Hcover _ _ Hf) as [Hin|Hin].
        - rewrite Forall_forall in Hnone, Hid. exfalso. apply (Hnone _ Hin).
          apply Hid. by eapply list_elem_of_lookup_2.
        - by rewrite Z2Nat.id in Hin by lia. }
      apply map_subseteq_size in Hall. rewrite RoundTrip.map_seqZ_size in Hall.
      lia.
  - f_equal. f_equal. apply map_subseteq_size_eq; [done|].
    rewrite RoundTrip.map_seqZ_size. lia.
Qed.

(** X17: the fragments of a reply are rebuilt in the order of their
    sequence numbers from any arrival: in any order, with any fragment
    repeated, and with messages of other ids in between, as long as every
    fragment arrives and every message with the id of the query is one of
    the fragments. *)
Theorem receive_any_arrival (request : Msg) (F0 : Msg) (T : list Msg)
    (conn : list Msg) :
  Forall (λ f, Id (Header f) = Id (Header request)) (F0 :: T) →
  (∀ i f, (F0 :: T) !! i = Some f →
          get_fragment_info f = Some (Z.of_nat (length (F0 :: T)), Z.of_nat i)) →
  (∀ m, m ∈ conn → Id (Header m) = Id (Header request) → m ∈ F0 :: T) →
  (∀ f, f ∈ F0 :: T → f ∈ conn) →
  receive request conn = Some (Rebuilt (foldl append_frag F0 T)).
Proof.
  intros Hid Hinfo Hconn Hcover. unfold receive.
  pose proof (Reading.wait_for_response_cases request conn) as Hw.
  destruct (wait_for_response request conn) as [[first|] conn'] eqn:E.
  - destruct Hw as (pre & -> & Hpre & Hfirst).
    assert (first ∈ F0 :: T) as HfF.
    { apply Hconn; [|done]. apply elem_of_app. right. apply list_elem_of_here. }
    apply list_elem_of_lookup in HfF as [j Hj].
    rewrite (Hinfo _ _ Hj), decide_False by lia.
    rewrite (collect_all request (F0 :: T)); [|done|done|lia| | |].
    + unfold rebuild. rewrite lookup_map_seqZ_0 by lia.
      change ((F0 :: T) !! Z.to_nat 0) with (Some F0). cbv beta iota.
      replace (Z.of_nat (length (F0 :: T)) - 1) with (Z.of_nat (length T))
        by (cbn [length]; lia).
      change 1 with (Z.of_nat (length [F0])).
      change (F0 :: T) with ([F0] ++ T).
      by rewrite RoundTrip.rebuild_loop_in_order.
    + apply map_singleton_subseteq_l.
      rewrite lookup_map_seqZ_0 by lia. by rewrite Nat2Z.id.
    + intros m Hm. apply Hconn. apply elem_of_app. right.
      by apply list_elem_of_further.
    + intros i f Hf. destruct (decide (i = j)) as [->|Hij].
      { right. rewrite lookup_singleton, decide_True by done. congruence. }
      left. assert (f ∈ pre ++ first :: conn') as Hin
        by (apply Hcover; by eapply list_elem_of_lookup_2).
      apply elem_of_app in Hin as [Hin|Hin].
      { rewrite Forall_forall in Hpre, Hid. exfalso. apply (Hpre _ Hin).
        apply Hid. by eapply list_elem_of_lookup_2. }
      apply elem_of_cons in Hin as [->|Hin]; [|done].
      exfalso. apply Hij.
      pose proof (Hinfo _ _ Hf) as H1. rewrite (Hinfo _ _ Hj) in H1.
      injection H1 as H1. lia.
  - exfalso. destruct Hw as [_ Hnone].
    rewrite Forall_forall in Hnone. apply Forall_cons in Hid as [Hid0 _].
    apply (Hnone F0); [|done]. apply Hcover, list_elem_of_here.
Qed.

Lemma receive_any_arrival_witness :
  receive (plain_query 7)
    [fragment x02 x01; reply 8 [] [] []; fragment x02 x01; fragment x02 x00]
  = Some (Rebuilt (foldl append_frag (fragment x02 x00) [fragment x02 x01])).
Proof.
  apply (receive_any_arrival (plain_query 7) (fragment x02 x00) [fragment x02 x01]).
  - repeat constructor.
  - intros [|[|i]] f Hf; simpl in Hf; try discriminate;
      injection Hf as <-; reflexivity.
  - intros m Hm Hid. repeat (apply elem_of_cons in Hm as [->|Hm]);
      [apply list_elem_of_further, list_elem_of_here
      |vm_compute in Hid; discriminate
      |apply list_elem_of_further, list_elem_of_here
      |apply list_elem_of_here
      |by apply elem_of_nil in Hm].
  - intros f Hf. repeat (apply elem_of_cons in Hf as [->|Hf]);
      [do 3 apply list_elem_of_further; apply list_elem_of_here
      |apply list_elem_of_here
      |by apply elem_of_nil in Hf].
Defined.

End Arrival.

(** ** The two proxies together *)

Module Pair.
Import ClientProxy Spec Examples.

Lemma proxy_req_header request :
  Header (proxy_req request) = Header request ∧
  Questions (proxy_req request) = Questions request.
Proof. unfold proxy_req. by destruct (IsEdns0 request). Qed.

Lemma upstream_query_header request :
  Header (upstream_query request) = Header request ∧
  Questions (upstream_query request) = Questions request.
Proof.
  unfold upstream_query.
  destruct (Capability.consume_capability_header (proxy_req request))
    as (Hh & Hq & _).
  destruct (proxy_req_header request) as [Hh' Hq']. by rewrite Hh, Hq.
Qed.

Section WithLen.
Variable Len : Msg → Z.

(** The server proxy always finds the marker in the query of the client
    proxy, so it never takes the path of the unmarked query. *)
Lemma server_on_marked (exchange : Msg → option Msg) (request : Msg) :
  ServerProxy.ServeDNS Len exchange (proxy_req request) =
  match exchange (upstream_query request) with
  | None => [ServerProxy.SRVFAIL (upstream_query request)]
  | Some response => ServerProxy.frag Len response
  end.
Proof.
  unfold ServerProxy.ServeDNS, upstream_query.
  assert ((ServerProxy.consume_capability (proxy_req request)).1 = true) as Hm.
  { eapply NoOPT.consume_capability_marked; [apply Marking.proxy_req_OPT|].
    exists (mkEDNS0 CAP_CODE []). split; [|done]. simpl.
    apply elem_of_app. right. apply list_elem_of_here. }
  destruct (ServerProxy.consume_capability (proxy_req request)) as [b fwd].
  simpl in *. subst b. by destruct (exchange fwd).
Qed.

(** X18: when the backend fails, the client of the pair gets one message:
    the SERVFAIL reply of the server proxy as it is, with the id and the
    first question of its query, the rcode 2 and no record. *)
Theorem pair_backend_error (exchange : Msg → option Msg) (request : Msg) :
  exchange (upstream_query request) = None →
  ∃ m, proxy_pair Len exchange request = Some (Written [m]) ∧
    Id (Header m) = Id (Header request) ∧
    Rcode (Header m) = RcodeServerFailure ∧
    Questions m = take 1 (Questions request) ∧
    Answer m = [] ∧ Ns m = [] ∧ Extra m = [].
Proof.
  intros Hx. unfold proxy_pair. rewrite server_on_marked, Hx.
  destruct (upstream_query_header request) as [Hh Hq].
  eexists. split.
  - simpl. unfold receive. cbn [wait_for_response ServerProxy.SRVFAIL SetRcode Header Id].
    rewrite Hh, decide_True by done. reflexivity.
  - simpl. by rewrite Hh, Hq.
Qed.

(** X19: when the backend answers without OPT record, the server proxy
    writes nothing, the client proxy reads until its deadline, and the
    client of the pair gets SERVFAIL in place of the answer. *)
Theorem pair_reply_without_OPT (exchange : Msg → option Msg) (request : Msg)
    (response : Msg) :
  exchange (upstream_query request) = Some response →
  IsEdns0 response = None →
  proxy_pair Len exchange request = Some (Written [SRVFAIL request]).
Proof.
  intros Hx Hno. unfold proxy_pair. rewrite server_on_marked, Hx.
  by rewrite (proj2 (Fragments.frag_nil_cases Len response) Hno).
Qed.



End WithLen.

Lemma pair_backend_error_witness :
  ∃ m, proxy_pair wire_len (λ _, None) (plain_query 7) = Some (Written [m]) ∧
    Id (Header m) = Id (Header (plain_query 7)) ∧
    Rcode (Header m) = RcodeServerFailure ∧
    Questions m = take 1 (Questions (plain_query 7)) ∧
    Answer m = [] ∧ Ns m = [] ∧ Extra m = [].
Proof.
  apply (pair_backend_error wire_len (λ _, None) (plain_query 7)). reflexivity.
Defined.

Lemma pair_reply_without_OPT_witness :
  proxy_pair wire_len (λ _, Some reply_without_opt) (plain_query 7)
  = Some (Written [SRVFAIL (plain_query 7)]).
Proof.
  apply (pair_reply_without_OPT wire_len (λ _, Some reply_without_opt)
           (plain_query 7) reply_without_opt); reflexivity.
Defined.



(** Without the hypothesis of one OPT record the pair can fail: the
    second fragment of the reply with two OPT records carries no
    descriptor the client proxy can read, so that the client proxy waits
    for a fragment that does not come and answers with SERVFAIL. *)
Lemma pair_second_OPT :
  ServerProxy.build wire_len two_OPT_reply ≠ None ∧
  length (ServerProxy.frag wire_len two_OPT_reply) = 2%nat ∧
  proxy_pair wire_len (λ _, Some two_OPT_reply) (plain_query 7)
  = Some (Written [SRVFAIL (plain_query 7)]).
Proof. repeat split; [vm_compute; discriminate|vm_compute; reflexivity..]. Qed.

End Pair.

(** ** The filling loop, and the OPT record of the rebuilt reply *)

Module Details.
Import ClientProxy Spec Examples.

(** X22: a filling loop is greedy.  It takes a prefix of the queue; after
    each record it has taken the fragment was within 512 octets; and it
    stops at the first record that does not fit, which stays at the head of
    the queue, or at the end of the queue. *)
Theorem fill_greedy (Len : Msg → Z) (add : Msg → RR → Msg) (f : Msg)
    (q : list RR) :
  ∃ taken,
    q = taken ++ (ServerProxy.fill Len add f q).2 ∧
    (ServerProxy.fill Len add f q).1 = foldl add f taken ∧
    (∀ n, (0 < n ≤ length taken)%nat → Len (foldl add f (take n taken)) ≤ 512) ∧
    match (ServerProxy.fill Len add f q).2 with
    | [] => True
    | r :: _ => 512 < Len (add (foldl add f taken) r)
    end.
Proof.
  revert f. induction q as [|r q IH]; intros f.
  - exists []. simpl. repeat split; auto. intros n Hn. simpl in Hn. lia.
  - cbn [ServerProxy.fill].
    destruct (Z.leb_spec (Len (add f r)) 512) as [Hle|Hgt].
    + destruct (IH (add f r)) as (taken & Hq & Hf & Hfit & Hstop).
      exists (r :: taken). split; [by rewrite <- app_comm_cons, <- Hq|].
      split; [done|]. split; [|done].
      intros [|n] Hn; [lia|]. cbn [take foldl].
      destruct n as [|n]; [by rewrite take_0|].
      apply Hfit. cbn [length] in Hn. lia.
    + exists []. simpl. repeat split; auto. intros n Hn. simpl in Hn. lia.
Qed.

Lemma no_OPT_appended (fs : list Msg) :
  Forall (λ r, is_OPT r = false)
    (concat ((λ f, filter (λ r, is_OPT r = false) (Extra f)) <$> fs)).
Proof.
  apply Forall_concat, Forall_fmap, Forall_forall. intros f _. simpl.
  apply Forall_forall. intros r Hr. by apply list_elem_of_filter in Hr as [Hr _].
Qed.

Lemma filter_OPT_no_OPT l :
  Forall (λ r, is_OPT r = false) l → filter (λ r, is_OPT r = true) l = [].
Proof.
  induction 1 as [|r l Hr _ IH]; [done|].
  rewrite filter_cons_False by congruence. done.
Qed.

(** X23: the rebuilt reply has the header of fragment 0 and, of all the
    OPT records of the fragments, those of fragment 0 only.  The
    descriptor of fragment 0 is not taken out: [get_fragment_info] reads
    from the rebuilt reply what it reads from fragment 0. *)
Theorem rebuilt_keeps_fragment0_OPT (frags : gmap Z Msg) (total : Z) (m : Msg) :
  rebuild frags total = Some m →
  ∃ f0, frags !! 0 = Some f0 ∧
    Header m = Header f0 ∧
    Questions m = Questions f0 ∧
    filter (λ r, is_OPT r = true) (Extra m) = filter (λ r, is_OPT r = true) (Extra f0) ∧
    IsEdns0 m = IsEdns0 f0 ∧
    get_fragment_info m = get_fragment_info f0.
Proof.
  unfold rebuild. destruct (frags !! 0) as [f0|]; [|done]. intros Hr.
  apply Classification.rebuild_loop_Some in Hr as (fs & _ & ->).
  exists f0. split; [done|]. rewrite RoundTrip.foldl_append_frag.
  pose proof (no_OPT_appended fs) as Hno.
  assert (last_OPT (Extra f0 ++
            concat ((λ f, filter (λ r, is_OPT r = false) (Extra f)) <$> fs))
          = last_OPT (Extra f0)) as Hlast.
  { by rewrite OPTFacts.last_OPT_app, (proj2 (OPTFacts.last_OPT_None _) Hno). }
  repeat split; cbn [Header Questions Extra].
  - by rewrite filter_app, (filter_OPT_no_OPT _ Hno), app_nil_r.
  - done.
  - unfold get_fragment_info, IsEdns0. cbn [Extra]. by rewrite Hlast.
Qed.

Lemma rebuilt_keeps_fragment0_OPT_witness :
  ∃ f0, (<[1 := fragment x02 x01]> {[ 0 := fragment x02 x00 ]} : gmap Z Msg) !! 0
        = Some f0 ∧
    Header (append_frag (fragment x02 x00) (fragment x02 x01)) = Header f0 ∧
    Questions (append_frag (fragment x02 x00) (fragment x02 x01)) = Questions f0 ∧
    filter (λ r, is_OPT r = true)
      (Extra (append_frag (fragment x02 x00) (fragment x02 x01)))
    = filter (λ r, is_OPT r = true) (Extra f0) ∧
    IsEdns0 (append_frag (fragment x02 x00) (fragment x02 x01)) = IsEdns0 f0 ∧
    get_fragment_info (append_frag (fragment x02 x00) (fragment x02 x01))
    = get_fragment_info f0.
Proof.
  apply (rebuilt_keeps_fragment0_OPT
           (<[1 := fragment x02 x01]> {[ 0 := fragment x02 x00 ]}) 2).
  vm_compute. reflexivity.
Defined.

(** X24: a first reply without descriptor, that is without OPT record or
    with an OPT record none of whose options has the code of the
    descriptor, is written to the client as it is: nothing more is read,
    and its length is not checked against the buffer size of the client. *)
Theorem unfragmented_verbatim (Len : Msg → Z) (request : Msg) (conn : list Msg)
    (first : Msg) (conn' : list Msg) :
  wait_for_response request conn = (Some first, conn') →
  (∀ o, IsEdns0 first = Some o → Forall (λ e, Code e ≠ FRAG_CODE) (Option o)) →
  ServeDNS Len (Connected conn) request = Some (Written [first]).
Proof.
  intros Hw Hno. simpl. unfold receive. rewrite Hw.
  assert (get_fragment_info first = Some (-1, -1)) as ->.
  { unfold get_fragment_info. destruct (IsEdns0 first) as [o|]; [|done].
    by rewrite (proj2 (Descriptor.first_option_None _ _) (Hno o eq_refl)). }
  done.
Qed.

Lemma unfragmented_verbatim_witness :
  ServeDNS wire_len (Connected [reply 8 [] [] []; small_reply; fragment x02 x01])
    (plain_query 7)
  = Some (Written [small_reply]).
Proof.
  apply (unfragmented_verbatim wire_len (plain_query 7)
           [reply 8 [] [] []; small_reply; fragment x02 x01]
           small_reply [fragment x02 x01]).
  - reflexivity.
  - intros o Ho. injection Ho as <-. constructor.
Defined.

End Details.
